(** * Yiila core: alias resolver, class importer, lazy registry, component
      factory and application slot of [lib/index.js].

    The development embeds the functions of [lib/index.js] as state-passing
    functions over the module's tables and proves the behaviour the
    specification describes.

    Conventions of the embedding.
    - The tables [_aliases], [_imports], [_classMap] and [Base] (the
      proxy's target) are plain JS objects used as string-keyed maps: each
      is the finite map of its own properties, and its prototype is
      [Object.prototype].  [o.hasOwnProperty(k)], [delete o[k]] and
      [o[k] = v] concern the own properties; a read [o[k]] that finds no
      own property yields what [Object.prototype] holds under [k]
      ([Object_prototype], as the engine ships it: nothing is added to it).
      The name [__proto__] is read like the other inherited names; a write
      under that name, which in the engine reaches the prototype slot, is
      not part of the model.
    - The methods of [Base] call one another through [this]; the embedding
      calls the embedded function, and a property read [this[name]] is the
      proxy's [get] handler, [proxy_get].
    - Node's [path] module is modelled in its POSIX flavour, as shipped with
      the Node releases [lib/index.js] was written for (it relies on
      [path.join] skipping an argument that is not a non-empty string, see
      [getPathOfAlias]).
    - The filesystem is a list of entries; [statSync] and [require] look a
      path up in it, optionally ignoring case as the default filesystems of
      macOS and Windows do.  Loading a regular file yields its exports.
    - The classes are collaborators: a constructor is known by what it sets
      on the fresh instance ([ctor_fields]); it does not touch other objects.
    - A thrown JS exception is the [Throw] outcome; the state reached when it
      was thrown is kept. *)

From Stdlib Require Import Ascii String List Bool Arith Lia.
From stdpp Require Import gmap strings list fin_maps.

Local Open Scope string_scope.
Local Open Scope list_scope.
Local Open Scope nat_scope.

(** ** JS string primitives *)

Module JsString.

(** [s.indexOf(c)]; [None] stands for [-1]. *)
Fixpoint indexOf (c : ascii) (s : string) : option nat :=
  match s with
  | EmptyString => None
  | String a r => if Ascii.eqb a c then Some 0 else S <$> indexOf c r
  end.

(** [s.lastIndexOf(c)]; [None] stands for [-1]. *)
Fixpoint lastIndexOf (c : ascii) (s : string) : option nat :=
  match s with
  | EmptyString => None
  | String a r =>
      match lastIndexOf c r with
      | Some i => Some (S i)
      | None => if Ascii.eqb a c then Some 0 else None
      end
  end.

(** [s.substring(0, n)] and [s.substring(n)]. *)
Definition substring_to (n : nat) (s : string) : string := substring 0 n s.
Definition substring_from (n : nat) (s : string) : string :=
  substring n (String.length s - n) s.

(** [s.split(c)]: never empty, [''.split(c)] is [['']]. *)
Fixpoint split (c : ascii) (s : string) : list string :=
  match s with
  | EmptyString => [EmptyString]
  | String a r =>
      if Ascii.eqb a c then EmptyString :: split c r
      else match split c r with
           | h :: t => String a h :: t
           | [] => [String a EmptyString]
           end
  end.

(** [l.join(sep)]. *)
Definition join (sep : string) (l : list string) : string := String.concat sep l.

Definition lower_ascii (a : ascii) : ascii :=
  let n := nat_of_ascii a in
  if ((65 <=? n)%nat && (n <=? 90)%nat)%bool then ascii_of_nat (n + 32) else a.

Fixpoint toLowerCase (s : string) : string :=
  match s with
  | EmptyString => EmptyString
  | String a r => String (lower_ascii a) (toLowerCase r)
  end.

(** [s.charAt(0) === c] and [s.substr(-1) === c]. *)
Definition starts_with (c : ascii) (s : string) : bool :=
  match s with String a _ => Ascii.eqb a c | EmptyString => false end.

Fixpoint ends_with (c : ascii) (s : string) : bool :=
  match s with
  | EmptyString => false
  | String a EmptyString => Ascii.eqb a c
  | String _ r => ends_with c r
  end.

End JsString.

(** ** JS values *)

Definition loc := positive.

(** The values the registry handles: [undefined], strings, functions
    (identified by their source text, which is also what they convert to as
    a property key), references to objects of the store, and the built-in
    object [Object.prototype]. *)
Inductive value :=
  | VUndefined
  | VStr (s : string)
  | VFun (src : string)
  | VObj (l : loc)
  | VObjectPrototype.

Definition truthy (v : value) : bool :=
  match v with
  | VUndefined => false
  | VStr s => negb (String.eqb s "")
  | VFun _ | VObj _ | VObjectPrototype => true
  end.

(** Conversion of a value used between brackets to a property name. *)
Definition to_key (v : value) : string :=
  match v with
  | VUndefined => "undefined"
  | VStr s => s
  | VFun src => src
  | VObj _ | VObjectPrototype => "[object Object]"
  end.

(** A built-in function, as it converts to a string. *)
Definition native (name : string) : value :=
  VFun ("function " +:+ name +:+ "() { [native code] }").

(** The properties of [Object.prototype], which every plain object
    inherits. *)
Definition Object_prototype : gmap string value :=
  list_to_map
    [ ("constructor", native "Object");
      ("toString", native "toString");
      ("toLocaleString", native "toLocaleString");
      ("valueOf", native "valueOf");
      ("hasOwnProperty", native "hasOwnProperty");
      ("isPrototypeOf", native "isPrototypeOf");
      ("propertyIsEnumerable", native "propertyIsEnumerable");
      ("__defineGetter__", native "__defineGetter__");
      ("__defineSetter__", native "__defineSetter__");
      ("__lookupGetter__", native "__lookupGetter__");
      ("__lookupSetter__", native "__lookupSetter__");
      ("__proto__", VObjectPrototype) ].

(** What a plain object without an own property [k] yields for [o[k]]. *)
Definition inherited (k : string) : value :=
  default VUndefined (Object_prototype !! k).

(** Truthiness of a string that may be absent ([null]), and of an own
    property of a table of strings. *)
Definition truthy_str (o : option string) : bool :=
  match o with
  | Some s => negb (String.eqb s "")
  | None => false
  end.

(** ** Node's [path] module (POSIX) *)

Module Path.
Import JsString.

Definition nonempty (s : string) : bool := negb (String.eqb s "").

(** [normalizeArray]'s loop runs from the last part to the first, counting
    in [up] the [..] parts still to be applied. *)
Fixpoint normalize_loop (rev_parts : list string) (up : nat) (kept : list string)
  : list string * nat :=
  match rev_parts with
  | [] => (kept, up)
  | p :: r =>
      if String.eqb p "." then normalize_loop r up kept
      else if String.eqb p ".." then normalize_loop r (S up) kept
      else match up with
           | S u => normalize_loop r u kept
           | O => normalize_loop r O (p :: kept)
           end
  end.

Definition normalizeArray (parts : list string) (allowAboveRoot : bool) : list string :=
  let '(kept, up) := normalize_loop (rev parts) 0 [] in
  if allowAboveRoot then repeat ".." up ++ kept else kept.

Definition normalize (path : string) : string :=
  let isAbsolute := starts_with "/"%char path in
  let trailingSlash := ends_with "/"%char path in
  let path1 :=
    JsString.join "/" (normalizeArray (filter (λ p, nonempty p = true) (split "/"%char path))
                             (negb isAbsolute)) in
  let path2 := if negb (nonempty path1) && negb isAbsolute then "." else path1 in
  let path3 := if nonempty path2 && trailingSlash then path2 +:+ "/" else path2 in
  (if isAbsolute then "/" else "") +:+ path3.

(** [paths.filter(function(p) { return p && typeof p === 'string'; })] *)
Definition string_args (args : list value) : list string :=
  omap (λ v, match v with
             | VStr s => if nonempty s then Some s else None
             | _ => None
             end) args.

(** [path.join(args...)] *)
Definition join (args : list value) : string :=
  normalize (JsString.join "/" (string_args args)).

(** The loop of [path.resolve], from the last argument to the first and
    then the working directory, until an absolute path is met. *)
Fixpoint resolve_loop (rev_args : list string) (resolvedPath : string)
  : string * bool :=
  match rev_args with
  | [] => (resolvedPath, false)
  | p :: r =>
      if nonempty p then
        let resolvedPath' := p +:+ "/" +:+ resolvedPath in
        if starts_with "/"%char p then (resolvedPath', true)
        else resolve_loop r resolvedPath'
      else resolve_loop r resolvedPath
  end.

(** [path.resolve(args...)] in a process whose working directory is [cwd]. *)
Definition resolve (cwd : string) (args : list string) : string :=
  let '(resolvedPath, resolvedAbsolute) := resolve_loop (rev args ++ [cwd]) "" in
  let resolvedPath' :=
    JsString.join "/"
      (normalizeArray (filter (λ p, nonempty p = true) (split "/"%char resolvedPath))
                      (negb resolvedAbsolute)) in
  let r := (if resolvedAbsolute then "/" else "") +:+ resolvedPath' in
  if nonempty r then r else ".".

(** [path.basename(p)]: the last non-empty part (the paths it is applied to
    here do not end in a slash). *)
Definition basename (path : string) : string :=
  List.last (filter (λ p, nonempty p = true) (split "/"%char path)) "".

End Path.

(** ** The process: filesystem, flags, collaborator classes *)

Inductive node :=
  | File (exports : value)   (* a regular file; [exports] is what loading it yields *)
  | Directory.

Record env := {
  __dirname : string;                  (* directory of lib/index.js *)
  cwd : string;                        (* process.cwd() *)
  YIILA_DEBUG : bool;                  (* GLOBAL.YIILA_DEBUG *)
  fs_entries : list (string * node);   (* what is on disk, by on-disk path *)
  fs_ignore_case : bool;               (* case-insensitive filesystem *)
  (* What the constructor with this source text does when applied to a
     fresh [this] and the arguments: the properties it sets, or [None] when
     it throws. *)
  ctor_fields : string → list value → option (gmap string value)
}.

Section Filesystem.
Context (E : env).
Import JsString.

Definition same_path (p q : string) : bool :=
  if fs_ignore_case E then String.eqb (toLowerCase p) (toLowerCase q)
  else String.eqb p q.

(** [lib.fs.statSync(p)]: [None] when it throws. *)
Definition statSync (p : string) : option node :=
  snd <$> List.find (λ e, same_path (fst e) p) (fs_entries E).

Definition isFile (n : node) : bool :=
  match n with File _ => true | Directory => false end.

Definition load_file (p : string) : option value :=
  match statSync p with
  | Some (File m) => Some m
  | _ => None
  end.

(** [require(p)]: the file itself, then with the extensions Node tries;
    [None] when the module cannot be found. *)
Definition require (p : string) : option value :=
  match load_file p with
  | Some m => Some m
  | None =>
      match load_file (p +:+ ".js") with
      | Some m => Some m
      | None =>
          match load_file (p +:+ ".json") with
          | Some m => Some m
          | None => load_file (p +:+ ".node")
          end
      end
  end.
End Filesystem.

(** ** The module's state *)

(** An object of the store: the constructor whose prototype it inherits from
    ([None] for a plain [Object]) and its own properties. *)
Record object := { proto : option string; props : gmap string value }.

Record state := {
  target : gmap string value;          (* own properties of [Base] *)
  _classMap : gmap string string;
  _includePaths : option (list string);  (* [None] is [null] *)
  _app : option loc;                   (* [None] is [null] *)
  _imports : gmap string string;
  _aliases : gmap string string;
  heap : gmap loc object;              (* descriptors and instances *)
  disposed : list loc                  (* calls of [dispose()], latest first *)
}.

Definition set_target (f : gmap string value → gmap string value) (st : state) : state :=
  {| target := f (target st); _classMap := _classMap st;
     _includePaths := _includePaths st; _app := _app st; _imports := _imports st;
     _aliases := _aliases st; heap := heap st; disposed := disposed st |}.

Definition set_classMap (f : gmap string string → gmap string string) (st : state) : state :=
  {| target := target st; _classMap := f (_classMap st);
     _includePaths := _includePaths st; _app := _app st; _imports := _imports st;
     _aliases := _aliases st; heap := heap st; disposed := disposed st |}.

Definition set_includePaths (v : option (list string)) (st : state) : state :=
  {| target := target st; _classMap := _classMap st;
     _includePaths := v; _app := _app st; _imports := _imports st;
     _aliases := _aliases st; heap := heap st; disposed := disposed st |}.

Definition set_app (v : option loc) (st : state) : state :=
  {| target := target st; _classMap := _classMap st;
     _includePaths := _includePaths st; _app := v; _imports := _imports st;
     _aliases := _aliases st; heap := heap st; disposed := disposed st |}.

Definition set_imports (f : gmap string string → gmap string string) (st : state) : state :=
  {| target := target st; _classMap := _classMap st;
     _includePaths := _includePaths st; _app := _app st; _imports := f (_imports st);
     _aliases := _aliases st; heap := heap st; disposed := disposed st |}.

Definition set_aliases (f : gmap string string → gmap string string) (st : state) : state :=
  {| target := target st; _classMap := _classMap st;
     _includePaths := _includePaths st; _app := _app st; _imports := _imports st;
     _aliases := f (_aliases st); heap := heap st; disposed := disposed st |}.

Definition set_heap (f : gmap loc object → gmap loc object) (st : state) : state :=
  {| target := target st; _classMap := _classMap st;
     _includePaths := _includePaths st; _app := _app st; _imports := _imports st;
     _aliases := _aliases st; heap := f (heap st); disposed := disposed st |}.

Definition set_disposed (f : list loc → list loc) (st : state) : state :=
  {| target := target st; _classMap := _classMap st;
     _includePaths := _includePaths st; _app := _app st; _imports := _imports st;
     _aliases := _aliases st; heap := heap st; disposed := f (disposed st) |}.

(** [_coreClasses] *)
Definition _coreClasses : gmap string string :=
  list_to_map
    [ ("CApplication", "core/CApplication");
      ("CComponent", "core/CComponent");
      ("CModel", "core/CModel");
      ("CConsoleApplication", "console/CConsoleApplication");
      ("CConsoleCommandRunner", "console/CConsoleCommandRunner");
      ("CConsoleCommand", "console/CConsoleCommand");
      ("CHelpCommand", "console/CHelpCommand");
      ("CDaemonCommand", "console/CDaemonCommand");
      ("CLogger", "logging/CLogger");
      ("CLogRoute", "logging/CLogRoute");
      ("CLogRouter", "logging/CLogRouter");
      ("CConsoleLogRoute", "logging/CConsoleLogRoute");
      ("CEmailLogRoute", "logging/CEmailLogRoute");
      ("CFileLogRoute", "logging/CFileLogRoute");
      ("CTaskQueue", "tasks/CTaskQueue");
      ("CGearmanTaskQueue", "tasks/CGearmanTaskQueue");
      ("CCache", "caching/CCache");
      ("CCacheDependency", "caching/CCacheDependency");
      ("CMemCache", "caching/CMemCache");
      ("CWebPage", "net/CWebPage");
      ("CNetworkProxy", "net/CNetworkProxy");
      ("CDomHelper", "utils/CDomHelper");
      ("CValidator", "validators/CValidator");
      ("CBooleanValidator", "validators/CBooleanValidator");
      ("CEmailValidator", "validators/CEmailValidator");
      ("CInlineValidator", "validators/CInlineValidator");
      ("CIpValidator", "validators/CIpValidator");
      ("CNumberValidator", "validators/CNumberValidator");
      ("CRangeValidator", "validators/CRangeValidator");
      ("CRequiredValidator", "validators/CRequiredValidator");
      ("CStringValidator", "validators/CStringValidator");
      ("CUrlValidator", "validators/CUrlValidator") ].

(** The methods of the object literal [Base]: its own properties when the
    module is loaded. *)
Definition Base_methods : list string :=
  [ "app"; "createApplication"; "createConsoleApplication"; "setApplication";
    "createComponent"; "getPathOfAlias"; "setPathOfAlias"; "import";
    "getLogger"; "log"; "trace"; "t"; "clone"; "extend"; "inherits" ].

(** The state when [lib/index.js] has been loaded. *)
Definition method_src (m : string) : string :=
  "function () { [body of Base." +:+ m +:+ "] }".

Definition initial (E : env) : state :=
  {| target := list_to_map ((λ m, (m, VFun (method_src m))) <$> Base_methods);
     _classMap := ∅;
     _includePaths := None;
     _app := None;
     _imports := ∅;
     _aliases := {[ "system" := __dirname E ]};
     heap := ∅;
     disposed := [] |}.

(** ** Exceptions and the state-and-exception monad *)

Inductive error :=
  | MultipleApplicationError   (* Error('Application can only be created once.') *)
  | ConfigurationError         (* Error('Object configuration must be an array containing a "class" element.') *)
  | InvalidAlias (alias : string)      (* 'Alias ... is invalid. Make sure it points to an existing directory or file.' *)
  | InvalidAliasFile (alias : string)  (* '... Make sure it points to an existing PHP file and the file is readable.' *)
  | ClassFileMismatch (name file : string)  (* 'Class name ... does not match class file ...' *)
  | ModuleNotFound (request : string)  (* thrown by [require] *)
  | ConstructorThrew (src : string)    (* whatever the constructor threw *)
  | TypeError.                 (* a call or property read on a value that has no such member *)

Inductive outcome (A : Type) :=
  | Ret (a : A)
  | Throw (e : error).
Arguments Ret {A} a.
Arguments Throw {A} e.

Definition M (A : Type) : Type := state → outcome A * state.

#[global] Instance M_ret : MRet M := λ A a st, (Ret a, st).
#[global] Instance M_bind : MBind M := λ A B f m st,
  match m st with
  | (Ret a, st') => f a st'
  | (Throw e, st') => (Throw e, st')
  end.

Definition throw {A} (e : error) : M A := λ st, (Throw e, st).
Definition get_state : M state := λ st, (Ret st, st).
Definition modify (f : state → state) : M unit := λ st, (Ret (), f st).

(** ** The functions of [lib/index.js] *)

Definition is_null {A} (o : option A) : bool :=
  match o with None => true | Some _ => false end.

(** [o.hasOwnProperty(k)] *)
Definition has_own {A} (o : gmap string A) (k : string) : bool :=
  negb (is_null (o !! k)).

(** [o[k]] for a plain object: the own property, or else the inherited
    one. *)
Definition js_get (o : gmap string value) (k : string) : value :=
  match o !! k with
  | Some v => v
  | None => inherited k
  end.

(** [o[k]] for a table whose own properties are strings. *)
Definition js_get_str (o : gmap string string) (k : string) : value :=
  match o !! k with
  | Some s => VStr s
  | None => inherited k
  end.

(** The descriptor handed to [createComponent]: a string, or an object of
    the store. *)
Inductive config :=
  | CfgString (s : string)
  | CfgObject (l : loc).

Section Registry.
Context (E : env).
Import JsString.

(** *** Store *)

Definition alloc (o : object) : M loc := λ st,
  let l := fresh (dom (heap st)) in
  (Ret l, set_heap <[l := o]> st).

Definition read (l : loc) : M object := λ st,
  match heap st !! l with
  | Some o => (Ret o, st)
  | None => (Throw TypeError, st)
  end.

(** [require(p)] as a step: the module, or the exception. *)
Definition require_ (p : string) : M value :=
  match require E p with
  | Some m => mret m
  | None => throw (ModuleNotFound p)
  end.

(** *** Application slot *)

(** [_app.dispose()]: the hook belongs to the application class; the call
    is recorded. *)
Definition dispose (a : loc) : M unit := modify (set_disposed (cons a)).

Definition app : M (option loc) := st ← get_state; mret (_app st).

Definition setApplication (app : option loc) : M unit :=
  st ← get_state;
  if is_null (_app st) || is_null app then
    (match app, _app st with
     | None, Some a => dispose a
     | _, _ => mret ()
     end);;
    modify (set_app app)
  else throw MultipleApplicationError.

(** *** Alias resolver *)

(** [if (args[args.length-1] == '*') delete args[args.length-1];]
    the array keeps its length, the last element reads [undefined]. *)
Definition drop_wildcard (args : list value) : list value :=
  match last args with
  | Some (VStr s) =>
      if String.eqb s "*" then <[length args - 1 := VUndefined]> args else args
  | _ => args
  end.

(** [getPathOfAlias(alias)]; [None] is the result [false].  What comes
    back from [_aliases[alias]] is a path, or what the table inherits under
    that name. *)
Definition getPathOfAlias (alias : string) : M (option value) :=
  st ← get_state;
  if truthy (js_get_str (_aliases st) alias)
  then mret (Some (js_get_str (_aliases st) alias))
  else
    match indexOf "." alias with
    | Some pos =>
        let rootAlias := substring_to pos alias in
        if truthy (js_get_str (_aliases st) rootAlias) then
          let args := VStr <$> split "." (substring_from (pos + 1) alias) in
          let args := drop_wildcard args in
          let args := js_get_str (_aliases st) rootAlias :: args in
          let p := Path.join args in
          modify (set_aliases <[alias := p]>);;
          mret (Some (VStr p))
        else mret None
    | None => mret None
    end.

(** [setPathOfAlias(alias, path)]; [None] is [null]. *)
Definition setPathOfAlias (alias : string) (path : option string) : M unit :=
  if truthy_str path then
    modify (set_aliases <[alias := Path.resolve (cwd E) [cwd E; default "" path]]>)
  else
    modify (set_aliases (delete alias)).

(** *** Lazy resolution: the [get] handler of the proxy *)

(** The loop over [_includePaths]; [stat] is declared outside the loop and
    keeps its value when [statSync] throws. *)
Fixpoint scan (name : string) (paths : list string) (stat : option node) : M unit :=
  match paths with
  | [] => mret ()
  | path :: rest =>
      let classFile := Path.join [VStr path; VStr (name +:+ ".js")] in
      let stat := match statSync E classFile with Some s => Some s | None => stat end in
      if from_option isFile false stat then
        m ← require_ classFile;
        modify (set_target <[name := m]>);;
        if YIILA_DEBUG E && negb (String.eqb (Path.basename classFile) (name +:+ ".js"))
        then throw (ClassFileMismatch name classFile)
        else mret ()
      else scan name rest stat
  end.

(** [get: function(target, name) {...}], the handler behind every property
    read on the module. *)
Definition proxy_get (name : string) : M value :=
  st ← get_state;
  (if negb (has_own (target st) name) then
     match _coreClasses !! name with
     | Some rel =>
         m ← require_ (Path.join [VStr (__dirname E); VStr rel]);
         modify (set_target <[name := m]>)
     | None =>
         match _classMap st !! name with
         | Some file =>
             m ← require_ file;
             modify (set_target <[name := m]>)
         | None =>
             match _includePaths st with
             | Some paths => scan name paths None
             | None => mret ()
             end
         end
     end
   else mret ());;
  st' ← get_state;
  mret (js_get (target st') name).

(** *** Class importer *)

(** The end of [import], from the comment [// a directory] on: [path] is
    what [getPathOfAlias(alias)] returned. *)
Definition import_directory (alias path : string) : M value :=
  st1 ← get_state;
  (if is_null (_includePaths st1)
   then modify (set_includePaths (Some [cwd E]))
   else mret ());;
  st2 ← get_state;
  (if bool_decide (path ∈ default [] (_includePaths st2)) then mret ()
   else modify (set_includePaths (Some (default [] (_includePaths st2) ++ [path]))));;
  modify (set_imports <[alias := path]>);;
  mret (VStr path).

(** [import(alias, opt_forceInclude)].  [createComponent] may hand it a
    value that is not a string.  Past the test for a dot, [alias] has one:
    [getPathOfAlias] then returns a string or [false], since no inherited
    name has a dot ([getPathOfAlias_dotted]); the case of another value is
    never reached. *)
Definition import (alias : value) (opt_forceInclude : bool) : M value :=
  st ← get_state;
  if truthy (js_get_str (_imports st) (to_key alias)) then
    mret (js_get_str (_imports st) (to_key alias))
  else
    match alias with
    | VStr alias =>
        match lastIndexOf "." alias with
        | None =>
            (if opt_forceInclude then
               v ← proxy_get alias;
               if truthy v then modify (set_imports <[alias := alias]>) else mret ()
             else mret ());;
            mret (VStr alias)
        | Some pos =>
            let className := substring_from (pos + 1) alias in
            let isClass := negb (String.eqb className "*") in
            p ← getPathOfAlias alias;
            match p with
            | Some (VStr path) =>
                if isClass then
                  (if opt_forceInclude then
                     if from_option isFile false (statSync E (path +:+ ".js")) then
                       m ← require_ (path +:+ ".js");
                       modify (set_target <[className := m]>);;
                       modify (set_imports <[alias := className]>)
                     else throw (InvalidAliasFile alias)
                   else modify (set_classMap <[className := path +:+ ".js"]>));;
                  mret (VStr className)
                else import_directory alias path
            | Some _ => throw TypeError   (* not reached *)
            | None => throw (InvalidAlias alias)
            end
        end
    | _ => throw TypeError   (* alias.lastIndexOf is not a function *)
    end.

(** *** Component factory *)

(** [(function construct(constructor, args) {...})(c, args)] *)
Definition construct (c : value) (args : list value) : M loc :=
  match c with
  | VFun src =>
      match ctor_fields E src args with
      | Some fields => alloc {| proto := Some src; props := fields |}
      | None => throw (ConstructorThrew src)
      end
  | _ => throw TypeError
  end.

(** [for (var key in config) if (key != 'class') obj[key] = config[key];] *)
Definition overlay (cfg : gmap string value) (o : object) : object :=
  foldr (λ kv o, if negb (String.eqb kv.1 "class")
                 then {| proto := proto o; props := <[kv.1 := kv.2]> (props o) |}
                 else o)
        o (map_to_list cfg).

Definition createComponent (config : config) (args : list value) : M value :=
  tc ← match config with
        | CfgString s =>
            t ← proxy_get s;
            l ← alloc {| proto := None; props := ∅ |};
            mret (t, l)
        | CfgObject l =>
            o ← read l;
            if has_own (props o) "class" then
              modify (set_heap <[l := {| proto := proto o; props := delete "class" (props o) |}]>);;
              mret (js_get (props o) "class", l)
            else throw ConfigurationError
        end;
  let type := tc.1 in
  let config := tc.2 in
  v ← proxy_get (to_key type);
  type ← (if negb (truthy v) then import type true else mret type);
  c ← proxy_get (to_key type);
  obj ← construct c args;
  cfg ← read config;
  o ← read obj;
  modify (set_heap <[obj := overlay (props cfg) o]>);;
  mret (VObj obj).

End Registry.

(** ** Definitions in the words of the specification *)

(** The segments joined to the root's path, in the words of the
    specification: the dot-delimited segments of the remainder, without a
    trailing wildcard segment. *)
Definition segments_to_join (segs : list string) : list string :=
  match last segs with
  | Some s => if String.eqb s "*" then removelast segs else segs
  | None => segs
  end.


(** ** A concrete process for the examples *)

Definition CLogger_src : string := "function CLogger() { this.routes = undefined; }".
Definition User_src : string := "function User(name) { this.name = name; }".
Definition Local_src : string := "function Local() {}".
Definition Shadow_src : string := "function Shadow() {}".

(** What the example constructors set on the fresh instance. *)
Definition demo_ctor (src : string) (args : list value) : option (gmap string value) :=
  if String.eqb src User_src then Some {[ "name" := default VUndefined (head args) ]}
  else if String.eqb src CLogger_src then Some {[ "routes" := VUndefined ]}
  else Some ∅.

Definition demo_fs : list (string * node) :=
  [ ("/opt/yiila/lib/logging/CLogger.js", File (VFun CLogger_src));
    ("/srv/app/models", Directory);
    ("/srv/app/models/User.js", File (VFun User_src));
    ("/srv/app/models/Local.js", File (VFun Shadow_src));
    ("/home/u/Local.js", File (VFun Local_src)) ].

(** Case-sensitive filesystem, debug flag off. *)
Definition demo_env : env :=
  {| __dirname := "/opt/yiila/lib"; cwd := "/home/u"; YIILA_DEBUG := false;
     fs_entries := demo_fs; fs_ignore_case := false; ctor_fields := demo_ctor |}.

(** Case-insensitive filesystem, debug flag on. *)
Definition strict_env : env :=
  {| __dirname := "/opt/yiila/lib"; cwd := "/home/u"; YIILA_DEBUG := true;
     fs_entries := demo_fs; fs_ignore_case := true; ctor_fields := demo_ctor |}.

(** After [setPathOfAlias('app', '/srv/app')]. *)
Definition app_state (E : env) : state :=
  snd (setPathOfAlias E "app" (Some "/srv/app") (initial E)).

(** After, in addition, [setPathOfAlias('app.models', '/elsewhere')]. *)
Definition app_models_state (E : env) : state :=
  snd (setPathOfAlias E "app.models" (Some "/elsewhere") (app_state E)).

(** A state in which the application at [a] is registered. *)
Definition registered_state (E : env) (a : loc) : state :=
  set_app (Some a) (initial E).

(** The directory scan in the words of the specification: the file looked
    for in a directory, and the first directory of the list, in list order,
    that holds it as a regular file. *)
Definition class_file (dir name : string) : string :=
  Path.join [VStr dir; VStr (name +:+ ".js")].

Fixpoint first_match (E : env) (name : string) (paths : list string)
  : option (string * value) :=
  match paths with
  | [] => None
  | dir :: rest =>
      match load_file E (class_file dir name) with
      | Some m => Some (class_file dir name, m)
      | None => first_match E name rest
      end
  end.


(** After [setPathOfAlias('app', '/srv/app')] and [import('app.models.*')]. *)
Definition models_state (E : env) : state :=
  snd (import E (VStr "app.models.*") false (app_state E)).



(** The include path list after a directory import, in the words of the
    specification: created with the working directory as its first element
    if it was [null], the directory appended unless it is already there. *)
Definition with_include_path (E : env) (path : string) (paths : option (list string))
  : list string :=
  let l := default [cwd E] paths in
  if bool_decide (path ∈ l) then l else l ++ [path].

(** A string ends in the part [x]: it is [x], or something, a slash
    and [x]. *)
Definition ends_in_part (x s : string) : Prop :=
  s = x ∨ ∃ t, s = t +:+ String "/" x.

(** ** Runs of the module *)

(** What a client of the module can do. *)
Inductive call :=
  | CallSetApplication (app : option loc)
  | CallGetPathOfAlias (alias : string)
  | CallSetPathOfAlias (alias : string) (path : option string)
  | CallImport (alias : string) (opt_forceInclude : bool)
  | CallGet (name : string)                      (* a reference [Yiila[name]] *)
  | CallNewObject (o : object)                   (* building a descriptor *)
  | CallCreateComponent (config : config) (args : list value).

Definition run_call (E : env) (c : call) (st : state) : state :=
  match c with
  | CallSetApplication a => snd (setApplication a st)
  | CallGetPathOfAlias alias => snd (getPathOfAlias alias st)
  | CallSetPathOfAlias alias path => snd (setPathOfAlias E alias path st)
  | CallImport alias force => snd (import E (VStr alias) force st)
  | CallGet name => snd (proxy_get E name st)
  | CallNewObject o => snd (alloc o st)
  | CallCreateComponent config args => snd (createComponent E config args st)
  end.

(** The state after a sequence of calls, exceptions caught by the client. *)
Definition run_calls (E : env) (calls : list call) : state :=
  foldl (λ st c, run_call E c st) (initial E) calls.


(** Every path of the alias table is a non-empty string. *)
Definition aliases_nonempty (st : state) : Prop :=
  ∀ k p, _aliases st !! k = Some p → p ≠ "".

(** A step keeps a property of the state, whether it returns or throws. *)
Definition preserves {A} (P : state → Prop) (m : M A) : Prop :=
  ∀ st, P st → P (snd (m st)).


(** The initial state with the descriptor [{'class': 'CLogger', level: 'info'}]
    at address 1. *)
Definition logger_descriptor : object :=
  {| proto := None;
     props := {[ "class" := VStr "CLogger"; "level" := VStr "info" ]} |}.

Definition descriptor_state (E : env) : state :=
  set_heap <[1%positive := logger_descriptor]> (initial E).

(** ** The other functions of [Base] *)

Section Utilities.
Context (E : env).

(** [createApplication(app, opt_config)]; [None] is the result [null].
    [new app(opt_config)] builds the instance as [construct] does. *)
Definition createApplication (app : value) (opt_config : value) : M (option loc) :=
  app ← (match app with
         | VStr s => proxy_get E s       (* typeof app === 'string' *)
         | _ => mret app
         end);
  match app with
  | VFun src => l ← construct E (VFun src) [opt_config]; mret (Some l)
  | _ => mret None                       (* typeof app !== 'function' *)
  end.

Definition createConsoleApplication (opt_config : value) : M (option loc) :=
  createApplication (VStr "CConsoleApplication") opt_config.

(** [clone(obj)]: a new object with the prototype of [obj] and its own
    properties, each copied with its value. *)
Definition clone (obj : loc) : M loc :=
  o ← read obj;
  alloc {| proto := proto o; props := props o |}.

(** [Object.getOwnPropertyNames(source).forEach(...)]: each own property of
    the source is defined on the target. *)
Definition define_all (source : gmap string value) (o : object) : object :=
  foldr (λ kv o, {| proto := proto o; props := <[kv.1 := kv.2]> (props o) |})
        o (map_to_list source).

(** [sources.forEach(function (source) {...})] *)
Fixpoint extend_loop (target : loc) (sources : list loc) : M unit :=
  match sources with
  | [] => mret ()
  | source :: rest =>
      s ← read source;
      t ← read target;
      modify (set_heap <[target := define_all (props s) t]>);;
      extend_loop target rest
  end.

(** [extend(sources...)] *)
Definition extend (sources : list loc) : M loc :=
  target ← alloc {| proto := None; props := ∅ |};
  extend_loop target sources;;
  mret target.

End Utilities.

(** ** Runs that use all of [Base] *)

Inductive call_ext :=
  | CallBase (c : call)
  | CallCreateApplication (app : value) (opt_config : value)
  | CallClone (obj : loc)
  | CallExtend (sources : list loc).

Definition run_call_ext (E : env) (c : call_ext) (st : state) : state :=
  match c with
  | CallBase c => run_call E c st
  | CallCreateApplication app cfg => snd (createApplication E app cfg st)
  | CallClone obj => snd (clone obj st)
  | CallExtend sources => snd (extend sources st)
  end.

Definition run_calls_ext (E : env) (calls : list call_ext) : state :=
  foldl (λ st c, run_call_ext E c st) (initial E) calls.


(** ** Invariants of the tables *)

(** The root segment of an alias: what comes before its first dot, the
    alias itself when it has none. *)
Definition root_segment (alias : string) : string :=
  match JsString.indexOf "." alias with
  | Some pos => JsString.substring_to pos alias
  | None => alias
  end.

(** Every path of the alias table is absolute, those apart that stand
    under a root segment [Object.prototype] defines. *)
Definition aliases_absolute (st : state) : Prop :=
  ∀ k p, _aliases st !! k = Some p → Object_prototype !! root_segment k = None →
         JsString.starts_with "/" p = true.

(** The include path list holds no string twice. *)
Definition includePaths_NoDup (st : state) : Prop :=
  NoDup (default [] (_includePaths st)).

(** One directory imported under two spellings of its alias. *)
Definition two_spellings_calls : list call_ext :=
  [ CallBase (CallSetPathOfAlias "app" (Some "/srv/app"));
    CallBase (CallImport "app.models.*" false);
    CallBase (CallImport "app.models/.*" false) ].

(** The import cache maps a name without a dot to itself. *)
Definition imports_simple (st : state) : Prop :=
  ∀ k v, JsString.lastIndexOf "." k = None → _imports st !! k = Some v → v = k.

(** The value [k] has in the last of the maps that define it. *)
Definition last_defined (k : string) (maps : list (gmap string value)) : option value :=
  last (omap (λ m, m !! k) maps).

(** ** [t]: messages with parameters *)

(** The third argument of [t]. *)
Inductive params :=
  | ParamsNone                                   (* absent, [undefined] or [null] *)
  | ParamsArray (args : list value)
  | ParamsString (s : string)
  | ParamsObject (entries : list (string * value)).
      (* the own properties, in the order of [Object.keys] *)

(** A key that, put in a regular expression, stands for itself: none of its
    characters is special, and no brace opens a quantifier. *)
Definition regex_special (c : ascii) : bool :=
  bool_decide (c ∈ list_ascii_of_string "\^$.*+?()[|").

Definition is_digit (c : ascii) : bool :=
  (48 <=? nat_of_ascii c) && (nat_of_ascii c <=? 57).

Fixpoint regex_literal (k : string) : bool :=
  match k with
  | EmptyString => true
  | String c r =>
      negb (regex_special c)
      && negb (Ascii.eqb c "{" && match r with String d _ => is_digit d | _ => false end)
      && regex_literal r
  end.

(** ['(' + Object.keys(opt_params).join('|') + ')']: the alternatives of the
    pattern, in order; without keys the group is empty and matches the
    empty string. *)
Definition pattern_alternatives (entries : list (string * value)) : list string :=
  match entries with
  | [] => [""]
  | _ => entries.*1
  end.

(** The first alternative that matches at the start of [s]. *)
Fixpoint match_here (alternatives : list string) (s : string) : option string :=
  match alternatives with
  | [] => None
  | k :: rest => if String.prefix k s then Some k else match_here rest s
  end.

(** [opt_params[key]] *)
Definition param_of (entries : list (string * value)) (key : string) : value :=
  default VUndefined (snd <$> List.find (λ e, String.eqb e.1 key) entries).

(** [message.replace(new RegExp(str, 'g'), f)] for a pattern that is a group
    of literal alternatives: the message is read once from left to right;
    [skip] counts the characters of the current match still to be passed
    over.  What [f] returns is not read again.  After an empty match the
    search resumes one character further. *)
Fixpoint replace_all (alternatives : list string) (f : string → string)
    (skip : nat) (s : string) {struct s} : string :=
  match skip with
  | S n =>
      match s with
      | String _ r => replace_all alternatives f n r
      | EmptyString => EmptyString
      end
  | O =>
      match match_here alternatives s with
      | Some k =>
          f k +:+
          match s with
          | EmptyString => EmptyString
          | String c r =>
              match String.length k with
              | O => String c (replace_all alternatives f 0 r)
              | S n => replace_all alternatives f n r
              end
          end
      | None =>
          match s with
          | EmptyString => EmptyString
          | String c r => String c (replace_all alternatives f 0 r)
          end
      end
  end.

Section Translate.
(** [lib.util.format], Node's own. *)
Context (util_format : string → list value → string).

(** [t(category, message, opt_params)] *)
Definition t (category message : string) (opt_params : params) : string :=
  match opt_params with
  | ParamsNone => message
  | ParamsArray args => util_format message args
  | ParamsString s =>
      if String.eqb s "" then message else util_format message [VStr s]
  | ParamsObject entries =>
      replace_all (pattern_alternatives entries)
                  (λ key, to_key (param_of entries key)) 0 message
  end.

End Translate.

(** The double quote, and the messages [lib/index.js] hands to [t]. *)
Definition dq : string := String (ascii_of_nat 34) EmptyString.

Definition msg_invalid_alias : string :=
  "Alias " +:+ dq +:+ "{alias}" +:+ dq
  +:+ " is invalid. Make sure it points to an existing directory or file.".

Definition msg_invalid_alias_file : string :=
  "Alias " +:+ dq +:+ "{alias}" +:+ dq
  +:+ " is invalid. Make sure it points to an existing PHP file and the file is readable.".

Definition msg_class_file_mismatch : string :=
  "Class name " +:+ dq +:+ "{class}" +:+ dq +:+ " does not match class file "
  +:+ dq +:+ "{file}" +:+ dq +:+ ".".

(** [k] occurs in [s]: some suffix of [s] starts with [k]. *)
Fixpoint occursb (k s : string) : bool :=
  String.prefix k s
  || match s with
     | EmptyString => false
     | String _ r => occursb k r
     end.

(** [sep] before every character of [s] and at its end. *)
Fixpoint interleave (sep s : string) : string :=
  sep +:+ match s with
          | EmptyString => EmptyString
          | String c r => String c (interleave sep r)
          end.
(** * Properties *)

(** ** The path model on examples *)

Example path_join_ex1 :
  Path.join [VStr "/srv/app"; VStr "models"; VStr "User"] = "/srv/app/models/User".
Proof. reflexivity. Qed.

Example path_join_ex2 :
  Path.join [VStr "/srv/app"; VStr "models"; VUndefined] = "/srv/app/models".
Proof. reflexivity. Qed.

Example path_join_ex3 :
  Path.join [VStr "/srv/app"; VStr "a/../b"; VStr "./c/"] = "/srv/app/b/c/".
Proof. reflexivity. Qed.

Example path_resolve_ex1 :
  Path.resolve "/home/u" ["/home/u"; "srv/./app/"] = "/home/u/srv/app".
Proof. reflexivity. Qed.

Example path_resolve_ex2 :
  Path.resolve "/home/u" ["/home/u"; "/srv/app"] = "/srv/app".
Proof. reflexivity. Qed.

Example path_basename_ex : Path.basename "/srv/app/models/User.js" = "User.js".
Proof. reflexivity. Qed.


(** ** Strings and paths *)

Section StringFacts.
Import JsString.

Lemma substring_0_length n s :
  n ≤ String.length s → String.length (substring 0 n s) = n.
Proof.
  revert n; induction s as [|a s IH]; intros [|n] Hn; simpl in *; try lia; auto.
  rewrite IH; lia.
Qed.

Lemma indexOf_lt c s pos : indexOf c s = Some pos → pos < String.length s.
Proof.
  revert pos; induction s as [|a s IH]; intros pos; simpl; [done|].
  destruct (Ascii.eqb a c); [intros [= <-]; lia|].
  destruct (indexOf c s) as [i|]; simpl; [|done].
  intros [= <-]. specialize (IH i eq_refl). lia.
Qed.

(** The root segment of a dotted alias is a different string. *)
Lemma root_segment_ne c s pos : indexOf c s = Some pos → substring_to pos s ≠ s.
Proof.
  intros H%indexOf_lt Heq. apply (f_equal String.length) in Heq.
  unfold substring_to in Heq. rewrite substring_0_length in Heq; lia.
Qed.

Lemma substring_from_0 s : substring_from 0 s = s.
Proof.
  unfold substring_from. rewrite Nat.sub_0_r. induction s; simpl; congruence.
Qed.

(** Cutting at the first separator and splitting the rest is splitting. *)
Lemma split_indexOf c s pos :
  indexOf c s = Some pos →
  split c s = substring_to pos s :: split c (substring_from (pos + 1) s).
Proof.
  revert pos; induction s as [|a s IH]; intros pos; simpl; [done|].
  destruct (Ascii.eqb a c) eqn:Hac.
  - intros [= <-]. simpl. unfold substring_to. simpl. f_equal.
    change (substring_from 1 (String a s)) with (substring 0 (String.length s - 0) s).
    fold (substring_from 0 s). by rewrite substring_from_0.
  - destruct (indexOf c s) as [i|] eqn:Hi; simpl; [|done].
    intros [= <-]. rewrite (IH i eq_refl). unfold substring_to, substring_from. simpl. done.
Qed.

Lemma split_no_sep c s : indexOf c s = None → split c s = [s].
Proof.
  induction s as [|a s IH]; simpl; [done|].
  destruct (Ascii.eqb a c); [done|].
  destruct (indexOf c s); simpl; [done|]. intros _. by rewrite IH.
Qed.

Lemma split_not_nil c s : split c s ≠ [].
Proof.
  destruct s as [|a s]; simpl; [done|].
  destruct (Ascii.eqb a c); [done|]. by destruct (split c s).
Qed.

Lemma nonempty_spec s : Path.nonempty s = true ↔ s ≠ "".
Proof.
  unfold Path.nonempty. destruct (String.eqb_spec s ""); split; intros; try done.
Qed.

Lemma app_nonempty_l s t : s ≠ "" → s +:+ t ≠ "".
Proof. destruct s; [done|]. by simpl. Qed.

Lemma normalize_nonempty p : Path.normalize p ≠ "".
Proof.
  unfold Path.normalize.
  destruct (starts_with "/" p); [by apply app_nonempty_l|].
  simpl negb.
  set (x := JsString.join "/" _).
  destruct (Path.nonempty x) eqn:Hx; simpl.
  - rewrite Hx. simpl. apply nonempty_spec in Hx.
    clearbody x.
    change ("" +:+ ?y) with y.
    destruct (ends_with "/" p); [by apply app_nonempty_l|done].
  - by destruct (ends_with "/" p).
Qed.

Lemma join_nonempty args : Path.join args ≠ "".
Proof. apply normalize_nonempty. Qed.

Lemma resolve_nonempty c args : Path.resolve c args ≠ "".
Proof.
  unfold Path.resolve. destruct (Path.resolve_loop _ _) as [rp abs].
  match goal with |- context [Path.nonempty ?x] => destruct (Path.nonempty x) eqn:Hx end;
    [by apply nonempty_spec in Hx|done].
Qed.

Lemma truthy_str_Some s : s ≠ "" → truthy_str (Some s) = true.
Proof. intros H. simpl. by apply nonempty_spec. Qed.

Lemma truthy_str_inv o : truthy_str o = true → ∃ s, o = Some s ∧ s ≠ "".
Proof.
  destruct o as [s|]; simpl; [|done]. intros H. exists s. split; [done|].
  by apply nonempty_spec.
Qed.

Lemma lastIndexOf_None_indexOf c s : lastIndexOf c s = None → indexOf c s = None.
Proof.
  induction s as [|a s IH]; simpl; [done|].
  destruct (lastIndexOf c s); [done|]. destruct (Ascii.eqb a c); [done|].
  intros _. by rewrite IH.
Qed.

Lemma indexOf_None_lastIndexOf c s : indexOf c s = None → lastIndexOf c s = None.
Proof.
  induction s as [|a s IH]; simpl; [done|].
  destruct (Ascii.eqb a c); [done|]. destruct (indexOf c s); [done|].
  intros _. by rewrite IH.
Qed.

Lemma lastIndexOf_Some_indexOf c s pos :
  lastIndexOf c s = Some pos → ∃ pos', indexOf c s = Some pos'.
Proof.
  intros H. destruct (indexOf c s) as [pos'|] eqn:Hi; [by eexists|].
  apply indexOf_None_lastIndexOf in Hi. congruence.
Qed.

End StringFacts.

(** ** Inherited properties *)

Section Inherited.
Import JsString.

(** What [Object.prototype] holds: names without a dot, and values that are
    neither falsy nor strings. *)
Lemma Object_prototype_inv k v :
  Object_prototype !! k = Some v →
  indexOf "." k = None ∧ truthy v = true ∧ ∀ s, v ≠ VStr s.
Proof.
  intros H%elem_of_list_to_map_2.
  repeat (apply elem_of_cons in H as [[= -> ->]|H]; [by repeat split|]).
  by apply elem_of_nil in H.
Qed.

Lemma not_inherited_dotted k pos : indexOf "." k = Some pos → Object_prototype !! k = None.
Proof.
  intros Hpos. destruct (Object_prototype !! k) as [v|] eqn:H; [|done].
  apply Object_prototype_inv in H as [H _]. congruence.
Qed.

Lemma not_inherited_dotted_last k pos :
  lastIndexOf "." k = Some pos → Object_prototype !! k = None.
Proof. intros [pos' H]%lastIndexOf_Some_indexOf. by eapply not_inherited_dotted. Qed.

Lemma inherited_None k : Object_prototype !! k = None → inherited k = VUndefined.
Proof. unfold inherited. by intros ->. Qed.

Lemma inherited_Some k v : Object_prototype !! k = Some v → inherited k = v.
Proof. unfold inherited. by intros ->. Qed.

Lemma js_get_str_own o k s : o !! k = Some s → js_get_str o k = VStr s.
Proof. unfold js_get_str. by intros ->. Qed.

Lemma js_get_str_absent o k : o !! k = None → js_get_str o k = inherited k.
Proof. unfold js_get_str. by intros ->. Qed.

(** For a name that is not inherited, the read sees the own property. *)
Lemma truthy_js_get_str o k :
  Object_prototype !! k = None → truthy (js_get_str o k) = truthy_str (o !! k).
Proof.
  intros H. unfold js_get_str. destruct (o !! k); [done|]. by rewrite inherited_None.
Qed.

Lemma truthy_js_get_str_own o k :
  truthy_str (o !! k) = true → truthy (js_get_str o k) = true.
Proof. unfold js_get_str. by destruct (o !! k). Qed.

(** A read that yields a string has found an own property. *)
Lemma js_get_str_VStr o k s : js_get_str o k = VStr s → o !! k = Some s.
Proof.
  unfold js_get_str. destruct (o !! k) as [s'|]; [by intros [= ->]|].
  unfold inherited. destruct (Object_prototype !! k) as [v|] eqn:H; [|done].
  apply Object_prototype_inv in H as (_ & _ & H). simpl. intros ->. by destruct (H s).
Qed.

(** A truthy read is an own non-empty string or an inherited property. *)
Lemma truthy_js_get_str_inv o k :
  truthy (js_get_str o k) = true →
  (∃ s, o !! k = Some s ∧ s ≠ "") ∨
  (∃ v, o !! k = None ∧ Object_prototype !! k = Some v).
Proof.
  unfold js_get_str. destruct (o !! k) as [s|].
  - intros H. left. exists s. split; [done|]. by apply nonempty_spec.
  - unfold inherited. destruct (Object_prototype !! k) as [v|]; [|done].
    intros _. right. by exists v.
Qed.

Lemma string_args_cons_other v l :
  (∀ s, v ≠ VStr s) → Path.string_args (v :: l) = Path.string_args l.
Proof.
  intros Hv. unfold Path.string_args.
  change (omap ?f (?x :: ?l')) with
    (match f x with Some y => y :: omap f l' | None => omap f l' end).
  cbv beta iota. destruct v; try done. by destruct (Hv s).
Qed.

End Inherited.

(** ** Alias resolver *)

Ltac unfold_M :=
  unfold mbind, M_bind, mret, M_ret, throw, get_state, modify in *.

Section AliasResolver.
Import JsString.

Lemma string_args_snoc_undefined args :
  Path.string_args (args ++ [VUndefined]) = Path.string_args args.
Proof. unfold Path.string_args. rewrite omap_app. simpl. apply app_nil_r. Qed.

(** Deleting the last element of the array and joining is joining without
    the wildcard segment. *)
Lemma string_args_drop_wildcard segs :
  Path.string_args (drop_wildcard (VStr <$> segs))
  = Path.string_args (VStr <$> segments_to_join segs).
Proof.
  unfold drop_wildcard, segments_to_join. rewrite fmap_last.
  destruct (last segs) as [s|] eqn:Hlast; simpl; [|done].
  destruct (String.eqb s "*"); [|done].
  apply last_Some in Hlast as [init ->].
  rewrite removelast_last, fmap_app, length_app. simpl.
  replace (length (VStr <$> init) + 1 - 1) with (length (VStr <$> init) + 0) by lia.
  rewrite insert_app_r. simpl. apply string_args_snoc_undefined.
Qed.

Lemma string_args_cons_str r l :
  Path.string_args (VStr r :: l)
  = (if Path.nonempty r then [r] else []) ++ Path.string_args l.
Proof.
  unfold Path.string_args. change (omap ?f (?x :: ?l')) with
    (match f x with Some y => y :: omap f l' | None => omap f l' end).
  cbv beta iota. by destruct (Path.nonempty r).
Qed.

Lemma join_drop_wildcard r segs :
  Path.join (VStr r :: drop_wildcard (VStr <$> segs))
  = Path.join (VStr <$> r :: segments_to_join segs).
Proof.
  unfold Path.join. f_equal. f_equal. rewrite fmap_cons.
  by rewrite !string_args_cons_str, string_args_drop_wildcard.
Qed.

(** The table answers first, with an own property or an inherited one. *)
Lemma getPathOfAlias_exact alias st :
  truthy (js_get_str (_aliases st) alias) = true →
  getPathOfAlias alias st = (Ret (Some (js_get_str (_aliases st) alias)), st).
Proof. intros H. unfold getPathOfAlias. unfold_M. by rewrite H. Qed.

Lemma getPathOfAlias_own alias st s :
  _aliases st !! alias = Some s → s ≠ "" →
  getPathOfAlias alias st = (Ret (Some (VStr s)), st).
Proof.
  intros Hs Hne. rewrite getPathOfAlias_exact; rewrite (js_get_str_own _ _ s) by done;
    [done|]. simpl. by apply nonempty_spec.
Qed.

(** An alias with a dot whose root segment reads truthy. *)
Lemma getPathOfAlias_compound_read alias st pos :
  truthy (js_get_str (_aliases st) alias) = false →
  indexOf "." alias = Some pos →
  truthy (js_get_str (_aliases st) (substring_to pos alias)) = true →
  let p := Path.join (js_get_str (_aliases st) (substring_to pos alias)
                        :: drop_wildcard
                             (VStr <$> split "." (substring_from (pos + 1) alias))) in
  getPathOfAlias alias st = (Ret (Some (VStr p)), set_aliases <[alias := p]> st).
Proof.
  intros H Hpos Hr. unfold getPathOfAlias. unfold_M. by rewrite H, Hpos, Hr.
Qed.

(** An alias with a dot, without an entry of its own, whose root segment is
    registered. *)
Lemma getPathOfAlias_compound alias st pos r :
  truthy_str (_aliases st !! alias) = false →
  indexOf "." alias = Some pos →
  _aliases st !! substring_to pos alias = Some r → r ≠ "" →
  let p := Path.join (VStr r :: drop_wildcard
                        (VStr <$> split "." (substring_from (pos + 1) alias))) in
  getPathOfAlias alias st = (Ret (Some (VStr p)), set_aliases <[alias := p]> st).
Proof.
  intros H Hpos Hr Hne.
  rewrite (getPathOfAlias_compound_read alias st pos);
    rewrite ?(js_get_str_own _ _ r) by done; try done.
  - by rewrite truthy_js_get_str by (by eapply not_inherited_dotted).
  - simpl. by apply nonempty_spec.
Qed.

Lemma getPathOfAlias_miss alias st :
  truthy (js_get_str (_aliases st) alias) = false →
  (∀ pos, indexOf "." alias = Some pos →
          truthy (js_get_str (_aliases st) (substring_to pos alias)) = false) →
  getPathOfAlias alias st = (Ret None, st).
Proof.
  intros H Hroot. unfold getPathOfAlias. unfold_M. rewrite H.
  destruct (indexOf "." alias) as [pos|]; [|done].
  by rewrite (Hroot pos eq_refl).
Qed.

(** A resolution that returns a string leaves it in the table, under the
    name that was asked for. *)
Lemma getPathOfAlias_Some_cached alias st st1 p :
  getPathOfAlias alias st = (Ret (Some (VStr p)), st1) →
  _aliases st1 !! alias = Some p ∧ p ≠ "".
Proof.
  unfold getPathOfAlias. unfold_M.
  destruct (truthy (js_get_str (_aliases st) alias)) eqn:H.
  - intros [= Hp <-]. rewrite Hp in H. simpl in H.
    split; [by apply js_get_str_VStr|by apply nonempty_spec].
  - destruct (indexOf "." alias) as [pos|]; [|done].
    destruct (truthy (js_get_str (_aliases st) (substring_to pos alias))); [|done].
    intros [= <- <-]. simpl. rewrite lookup_insert_eq. split; [done|].
    apply join_nonempty.
Qed.

(** Asked for an alias with a dot, [getPathOfAlias] returns a string or
    [false]: no inherited name has a dot. *)
Lemma getPathOfAlias_dotted alias pos st p st1 :
  indexOf "." alias = Some pos →
  getPathOfAlias alias st = (Ret (Some p), st1) →
  ∃ s, p = VStr s.
Proof.
  intros Hpos. unfold getPathOfAlias. unfold_M.
  destruct (truthy (js_get_str (_aliases st) alias)) eqn:H.
  - intros [= <- <-]. apply truthy_js_get_str_inv in H as [(s & Hs & _)|(v & _ & Hv)].
    + exists s. by apply js_get_str_own.
    + by rewrite (not_inherited_dotted _ _ Hpos) in Hv.
  - rewrite Hpos.
    destruct (truthy (js_get_str (_aliases st) (substring_to pos alias))); [|done].
    intros [= <- <-]. by eexists.
Qed.

Lemma getPathOfAlias_returns a st : ∃ r, fst (getPathOfAlias a st) = Ret r.
Proof.
  unfold getPathOfAlias. unfold_M.
  destruct (truthy (js_get_str (_aliases st) a)); [by eexists|].
  destruct (indexOf "." a) as [pos|]; [|by eexists].
  destruct (truthy (js_get_str (_aliases st) (substring_to pos a))); by eexists.
Qed.

(** What [getPathOfAlias] gives for an alias with a dot. *)
Lemma getPathOfAlias_dotted_cases a pos st :
  indexOf "." a = Some pos →
  (∃ s st1, getPathOfAlias a st = (Ret (Some (VStr s)), st1)) ∨
  (∃ st1, getPathOfAlias a st = (Ret None, st1)).
Proof.
  intros Hpos. destruct (getPathOfAlias a st) as [[[p|]|e] st1] eqn:Hg.
  - destruct (getPathOfAlias_dotted _ _ _ _ _ Hpos Hg) as [s ->]. left. by eauto.
  - right. by eauto.
  - destruct (getPathOfAlias_returns a st) as [x Hx]. by rewrite Hg in Hx.
Qed.

(** An alias with a dot, without an entry of its own, whose root segment is
    not registered but is the name of an inherited property: the inherited
    value passes the test, [path.join] skips it, and the remainder alone is
    joined, stored and returned. *)
Lemma getPathOfAlias_inherited_root alias st pos v :
  truthy_str (_aliases st !! alias) = false →
  indexOf "." alias = Some pos →
  _aliases st !! substring_to pos alias = None →
  Object_prototype !! substring_to pos alias = Some v →
  let p := Path.join (VStr <$> segments_to_join
                                 (split "." (substring_from (pos + 1) alias))) in
  getPathOfAlias alias st = (Ret (Some (VStr p)), set_aliases <[alias := p]> st).
Proof.
  intros H Hpos Hown Hv.
  destruct (Object_prototype_inv _ _ Hv) as (_ & Htruthy & Hnostr).
  rewrite (getPathOfAlias_compound_read alias st pos);
    rewrite ?js_get_str_absent, ?(inherited_Some _ v) by done; try done.
  - cbv zeta. unfold Path.join.
    by rewrite string_args_cons_other, string_args_drop_wildcard by done.
  - by rewrite truthy_js_get_str by (by eapply not_inherited_dotted).
Qed.

Lemma setPathOfAlias_other E a path st b :
  a ≠ b →
  _aliases (snd (setPathOfAlias E a path st)) !! b = _aliases st !! b.
Proof.
  intros Hne. unfold setPathOfAlias. unfold_M.
  destruct (truthy_str path); simpl.
  - by rewrite lookup_insert_ne.
  - by rewrite lookup_delete_ne.
Qed.

Lemma setPathOfAlias_stored E a path st :
  path ≠ "" →
  _aliases (snd (setPathOfAlias E a (Some path) st)) !! a
  = Some (Path.resolve (cwd E) [cwd E; path]).
Proof.
  intros Hne. unfold setPathOfAlias. unfold_M.
  rewrite truthy_str_Some by done. simpl. by rewrite lookup_insert_eq.
Qed.

Lemma setPathOfAlias_removed E a st :
  _aliases (snd (setPathOfAlias E a None st)) !! a = None.
Proof. unfold setPathOfAlias. unfold_M. simpl. by rewrite lookup_delete_eq. Qed.

End AliasResolver.

(** *** What the specification says of the alias resolver *)

Section AliasClaims.
Import JsString.

Lemma split_root alias root segs :
  split "." alias = root :: segs → segs ≠ [] →
  ∃ pos, indexOf "." alias = Some pos ∧ root = substring_to pos alias ∧
         segs = split "." (substring_from (pos + 1) alias).
Proof.
  intros Hsplit Hsegs. destruct (indexOf "." alias) as [pos|] eqn:Hpos.
  - exists pos. rewrite (split_indexOf _ _ _ Hpos) in Hsplit. by simplify_eq.
  - rewrite (split_no_sep _ _ Hpos) in Hsplit. by simplify_eq.
Qed.

Lemma split_root_inv alias pos :
  indexOf "." alias = Some pos →
  ∃ segs, split "." alias = substring_to pos alias :: segs ∧ segs ≠ [].
Proof.
  intros Hpos. eexists. split; [by apply split_indexOf|]. apply split_not_nil.
Qed.

(** C2: [getPathOfAlias] tests the root segment with [_aliases[rootAlias]],
    a read that also finds what the table inherits from [Object.prototype].
    When the module is loaded only [system] is registered.  The root
    segment [constructor] of [constructor.x] is not a registered alias, yet
    the read yields the function [Object] and the test passes; [path.join]
    skips what is not a string, and the call returns [x] and stores it
    under [constructor.x], where the documentation of the method promises
    [false] for an invalid alias.  In the same state a root segment that is
    neither registered nor inherited gives [false], and once [app] is
    registered as [/srv/app], [app.models.User] resolves to
    [/srv/app/models/User]. *)
Theorem C2_inherited_root_is_resolved :
  _aliases (initial demo_env) = {[ "system" := "/opt/yiila/lib" ]} ∧
  getPathOfAlias "constructor.x" (initial demo_env)
  = (Ret (Some (VStr "x")), set_aliases <["constructor.x" := "x"]> (initial demo_env)) ∧
  getPathOfAlias "nowhere.x" (initial demo_env) = (Ret None, initial demo_env) ∧
  fst ((setPathOfAlias demo_env "app" (Some "/srv/app");;
        getPathOfAlias "app.models.User") (initial demo_env))
  = Ret (Some (VStr "/srv/app/models/User")).
Proof. repeat split; reflexivity. Qed.

(** C6: [setPathOfAlias] hands the path to [path.resolve] before storing
    it.  In a process whose working directory is [/home/u],
    [setPathOfAlias('app', 'srv/./app/')] stores [/home/u/srv/app], and
    that, not the string passed in, is what [getPathOfAlias('app')]
    returns. *)
Theorem C6_setPathOfAlias_normalizes :
  fst ((setPathOfAlias demo_env "app" (Some "srv/./app/");;
        getPathOfAlias "app") (initial demo_env))
  = Ret (Some (VStr "/home/u/srv/app")) ∧
  fst ((setPathOfAlias demo_env "app" (Some "srv/./app/");;
        getPathOfAlias "app") (initial demo_env))
  ≠ Ret (Some (VStr "srv/./app/")).
Proof. split; [reflexivity|]. vm_compute. discriminate. Qed.

(** What [setPathOfAlias] stores in general: the path resolved against the
    working directory. *)
Lemma setPathOfAlias_then_resolve E st alias path :
  path ≠ "" →
  fst ((setPathOfAlias E alias (Some path);; getPathOfAlias alias) st)
  = Ret (Some (VStr (Path.resolve (cwd E) [cwd E; path]))).
Proof.
  intros Hne. pose proof (setPathOfAlias_stored E alias path st Hne) as Hst.
  unfold_M. destruct (setPathOfAlias E alias (Some path) st) as [[[]|e] st1] eqn:Hset;
    [|by unfold setPathOfAlias in Hset; unfold_M; destruct (truthy_str _)].
  simpl in Hst. rewrite (getPathOfAlias_own _ _ _ Hst); [done|].
  apply resolve_nonempty.
Qed.

(** C7: once a compound alias has been resolved, its path stays: after
    [setPathOfAlias] on its root segment (to another path, or to remove
    it), [getPathOfAlias] on the compound alias returns the path it
    returned before and changes nothing. *)
Theorem C7_cached_compound_alias_survives_root_change
    (E : env) (st st1 : state) (alias : string) (pos : nat) (p : value)
    (newpath : option string) :
  indexOf "." alias = Some pos →
  getPathOfAlias alias st = (Ret (Some p), st1) →
  getPathOfAlias alias (snd (setPathOfAlias E (substring_to pos alias) newpath st1))
  = (Ret (Some p), snd (setPathOfAlias E (substring_to pos alias) newpath st1)).
Proof.
  intros Hpos Hres.
  destruct (getPathOfAlias_dotted _ _ _ _ _ Hpos Hres) as [s ->].
  destruct (getPathOfAlias_Some_cached _ _ _ _ Hres) as [Hcached Hne].
  pose proof (setPathOfAlias_other E (substring_to pos alias) newpath st1 alias
                (root_segment_ne _ _ _ Hpos)) as Hkept.
  apply getPathOfAlias_own; [by rewrite Hkept|done].
Qed.

Lemma C7_witness :
  getPathOfAlias "app.models.User"
    (snd (setPathOfAlias demo_env (substring_to 3 "app.models.User") (Some "/other")
            (snd (getPathOfAlias "app.models.User" (app_state demo_env)))))
  = (Ret (Some (VStr "/srv/app/models/User")),
     snd (setPathOfAlias demo_env (substring_to 3 "app.models.User") (Some "/other")
            (snd (getPathOfAlias "app.models.User" (app_state demo_env))))).
Proof.
  apply (C7_cached_compound_alias_survives_root_change
           demo_env (app_state demo_env) _ "app.models.User" 3
           (VStr "/srv/app/models/User") (Some "/other")); reflexivity.
Defined.

(** C8, as stated, fails for a compound alias whose root is registered:
    after [setPathOfAlias('system.core', null)], [getPathOfAlias] of
    [system.core] computes the path again from the root [system]. *)
Lemma C8_counterexample :
  fst ((setPathOfAlias demo_env "system.core" None;;
        getPathOfAlias "system.core") (initial demo_env))
  ≠ Ret None.
Proof. vm_compute. discriminate. Qed.

(** C8 (amended): for an alias that has no dot, or whose root segment (up
    to its first dot) is not registered, and where neither the alias nor
    its root segment is the name of a property the table inherits from
    [Object.prototype], [setPathOfAlias(a, null)] followed by
    [getPathOfAlias(a)] yields [false] (here [None]). *)
Theorem C8_removed_alias_not_found (E : env) (st : state) (a : string) :
  Object_prototype !! a = None →
  (∀ root segs, split "." a = root :: segs → segs ≠ [] →
                truthy_str (_aliases st !! root) = false ∧
                Object_prototype !! root = None) →
  fst ((setPathOfAlias E a None;; getPathOfAlias a) st) = Ret None.
Proof.
  intros Ha Hroot.
  pose proof (setPathOfAlias_removed E a st) as Hgone.
  pose proof (λ b, setPathOfAlias_other E a None st b) as Hother.
  unfold_M. destruct (setPathOfAlias E a None st) as [[[]|e] st1] eqn:Hset;
    [|by unfold setPathOfAlias in Hset; unfold_M].
  simpl in Hgone, Hother.
  rewrite getPathOfAlias_miss; [done|by rewrite truthy_js_get_str, Hgone|].
  intros pos Hpos.
  destruct (split_root_inv _ _ Hpos) as (segs & Hsplit & Hsegs).
  destruct (Hroot _ _ Hsplit Hsegs) as [Hfalsy Hnot].
  rewrite truthy_js_get_str by done.
  by rewrite Hother by (intros Heq; by apply (root_segment_ne _ _ _ Hpos)).
Qed.

Lemma C8_witness :
  fst ((setPathOfAlias demo_env "app" None;; getPathOfAlias "app") (app_state demo_env))
  = Ret None ∧
  fst ((setPathOfAlias demo_env "nowhere.core" None;; getPathOfAlias "nowhere.core")
         (app_state demo_env))
  = Ret None.
Proof.
  split.
  - apply (C8_removed_alias_not_found demo_env (app_state demo_env) "app"); [reflexivity|].
    intros root segs [= <- <-] Hsegs. by destruct Hsegs.
  - apply (C8_removed_alias_not_found demo_env (app_state demo_env) "nowhere.core");
      [reflexivity|].
    intros root segs [= <- <-] _. split; reflexivity.
Defined.

End AliasClaims.

(** ** Application slot *)

Section ApplicationSlot.

Lemma set_app_id st : set_app (_app st) st = st.
Proof. by destruct st. Qed.

(** C3: the slot holds at most one application.  From Unregistered,
    [setApplication(a)] succeeds; while an application is registered,
    [setApplication(b)] throws and changes nothing; [setApplication(null)]
    while [a] is registered calls [a.dispose()] and empties the slot, after
    which [setApplication(b)] succeeds; [setApplication(null)] from
    Unregistered changes nothing. *)
Theorem C3_single_application (st : state) (a b : loc) :
  (_app st = None →
     setApplication (Some a) st = (Ret (), set_app (Some a) st)) ∧
  (_app st = Some a →
     setApplication (Some b) st = (Throw MultipleApplicationError, st)) ∧
  (_app st = Some a →
     setApplication None st
     = (Ret (), set_app None (set_disposed (cons a) st)) ∧
     (setApplication None;; setApplication (Some b)) st
     = (Ret (), set_app (Some b) (set_disposed (cons a) st))) ∧
  (_app st = None → setApplication None st = (Ret (), st)).
Proof.
  unfold setApplication, dispose. unfold_M.
  split; [|split; [|split]]; intros H; rewrite H; simpl; try done.
  rewrite <- H. by rewrite set_app_id.
Qed.

Lemma C3_witness :
  setApplication (Some 1%positive) (initial demo_env)
  = (Ret (), set_app (Some 1%positive) (initial demo_env)) ∧
  setApplication (Some 2%positive) (registered_state demo_env 1%positive)
  = (Throw MultipleApplicationError, registered_state demo_env 1%positive) ∧
  (setApplication None;; setApplication (Some 2%positive)) (registered_state demo_env 1%positive)
  = (Ret (), set_app (Some 2%positive)
               (set_disposed (cons 1%positive) (registered_state demo_env 1%positive))) ∧
  setApplication None (initial demo_env) = (Ret (), initial demo_env).
Proof.
  split; [|split; [|split]].
  - apply (C3_single_application (initial demo_env) 1%positive 2%positive). reflexivity.
  - apply (C3_single_application (registered_state demo_env 1%positive) 1%positive 2%positive). reflexivity.
  - apply (C3_single_application (registered_state demo_env 1%positive) 1%positive 2%positive). reflexivity.
  - apply (C3_single_application (initial demo_env) 1%positive 2%positive). reflexivity.
Defined.

End ApplicationSlot.

(** ** Lazy resolution registry *)

Section LazyResolution.
Context (E : env).

Lemma require_of_file p m : load_file E p = Some m → require E p = Some m.
Proof. intros H. unfold require. by rewrite H. Qed.

(** The loop finds what [first_match] describes.  The value [stat] holds
    when the loop is entered is never that of a regular file. *)
Lemma scan_first_match name paths stat st :
  from_option isFile false stat = false →
  scan E name paths stat st
  = match first_match E name paths with
    | Some (file, m) =>
        (if YIILA_DEBUG E && negb (String.eqb (Path.basename file) (name +:+ ".js"))
         then Throw (ClassFileMismatch name file) else Ret (),
         set_target <[name := m]> st)
    | None => (Ret (), st)
    end.
Proof.
  revert stat. induction paths as [|dir rest IH]; intros stat Hstat; simpl; [done|].
  fold (class_file dir name). unfold load_file.
  destruct (statSync E (class_file dir name)) as [[m|]|] eqn:Hs; simpl.
  - unfold require_. rewrite (require_of_file _ m) by (unfold load_file; by rewrite Hs).
    unfold_M. by destruct (YIILA_DEBUG E && _).
  - by apply IH.
  - rewrite Hstat. by apply IH.
Qed.

Lemma proxy_get_bound name v st :
  target st !! name = Some v → proxy_get E name st = (Ret v, st).
Proof.
  intros H. unfold proxy_get, has_own, js_get. unfold_M. rewrite H. simpl.
  by rewrite H.
Qed.

Lemma proxy_get_core name rel st :
  target st !! name = None → _coreClasses !! name = Some rel →
  proxy_get E name st
  = match require E (Path.join [VStr (__dirname E); VStr rel]) with
    | Some m => (Ret m, set_target <[name := m]> st)
    | None => (Throw (ModuleNotFound (Path.join [VStr (__dirname E); VStr rel])), st)
    end.
Proof.
  intros H Hc. unfold proxy_get, has_own, js_get, require_. unfold_M.
  rewrite H, Hc. simpl. destruct (require E _); [|done].
  simpl. by rewrite lookup_insert_eq.
Qed.

Lemma proxy_get_classMap name file st :
  target st !! name = None → _coreClasses !! name = None →
  _classMap st !! name = Some file →
  proxy_get E name st
  = match require E file with
    | Some m => (Ret m, set_target <[name := m]> st)
    | None => (Throw (ModuleNotFound file), st)
    end.
Proof.
  intros H Hc Hm. unfold proxy_get, has_own, js_get, require_. unfold_M.
  rewrite H, Hc, Hm. simpl. destruct (require E _); [|done].
  simpl. by rewrite lookup_insert_eq.
Qed.

Lemma proxy_get_scan name st :
  target st !! name = None → _coreClasses !! name = None →
  _classMap st !! name = None →
  proxy_get E name st
  = match first_match E name (default [] (_includePaths st)) with
    | Some (file, m) =>
        (if YIILA_DEBUG E && negb (String.eqb (Path.basename file) (name +:+ ".js"))
         then Throw (ClassFileMismatch name file) else Ret m,
         set_target <[name := m]> st)
    | None => (Ret (inherited name), st)
    end.
Proof.
  intros H Hc Hm. unfold proxy_get, has_own, js_get. unfold_M.
  rewrite H, Hc, Hm. simpl.
  destruct (_includePaths st) as [paths|]; simpl; [|by rewrite H].
  rewrite scan_first_match by done.
  destruct (first_match E name paths) as [[file m]|]; [|by rewrite H].
  destruct (YIILA_DEBUG E && _); [done|]. simpl. by rewrite lookup_insert_eq.
Qed.

(** A reference changes nothing but the own properties of the target, and
    there at most the property referred to. *)
Lemma proxy_get_frame name st :
  snd (proxy_get E name st) = st ∨
  ∃ m, snd (proxy_get E name st) = set_target <[name := m]> st.
Proof.
  destruct (target st !! name) as [v|] eqn:H.
  { left. by rewrite (proxy_get_bound _ v). }
  destruct (_coreClasses !! name) as [rel|] eqn:Hc.
  { rewrite (proxy_get_core _ rel) by done. destruct (require E _); eauto. }
  destruct (_classMap st !! name) as [file|] eqn:Hm.
  { rewrite (proxy_get_classMap _ file) by done. destruct (require E _); eauto. }
  rewrite proxy_get_scan by done.
  destruct (first_match E name _) as [[file m]|]; eauto.
Qed.


End LazyResolution.

(** ** Properties kept by the steps *)

Section Preservation.
Context (E : env).

Lemma preserves_ret {A} P (a : A) : preserves P (mret a).
Proof. by intros st H. Qed.

Lemma preserves_throw {A} P e : preserves P (@throw A e).
Proof. by intros st H. Qed.

Lemma preserves_get_state P : preserves P get_state.
Proof. by intros st H. Qed.

Lemma preserves_modify P f : (∀ st, P st → P (f st)) → preserves P (modify f).
Proof. intros Hf st H. by apply Hf. Qed.

Lemma preserves_bind {A B} P (m : M A) (f : A → M B) :
  preserves P m → (∀ a, preserves P (f a)) → preserves P (m ≫= f).
Proof.
  intros Hm Hf st H. specialize (Hm st H). unfold_M.
  destruct (m st) as [[a|e] st']; simpl in *; [by apply Hf|done].
Qed.

Lemma preserves_read P l : preserves P (read l).
Proof. intros st H. unfold read. by destruct (heap st !! l). Qed.

Lemma preserves_require P p : preserves P (require_ E p).
Proof. intros st H. unfold require_. by destruct (require E p). Qed.

(** References through the proxy touch the target only. *)
Lemma preserves_proxy_get P name :
  (∀ st f, P st → P (set_target f st)) → preserves P (proxy_get E name).
Proof.
  intros HP st H. destruct (proxy_get_frame E name st) as [->|[m ->]]; [done|].
  by apply HP.
Qed.

Lemma getPathOfAlias_frame alias st :
  snd (getPathOfAlias alias st) = st ∨
  ∃ p, p ≠ "" ∧ snd (getPathOfAlias alias st) = set_aliases <[alias := p]> st.
Proof.
  unfold getPathOfAlias. unfold_M.
  destruct (truthy (js_get_str (_aliases st) alias)); [by left|].
  destruct (JsString.indexOf "." alias) as [pos|]; [|by left].
  destruct (truthy _); [|by left]. right. eexists. split; [|done].
  apply join_nonempty.
Qed.

Lemma preserves_getPathOfAlias P alias :
  (∀ st k p, p ≠ "" → P st → P (set_aliases <[k := p]> st)) →
  preserves P (getPathOfAlias alias).
Proof.
  intros HP st H.
  destruct (getPathOfAlias_frame alias st) as [->|(p & Hne & ->)]; [done|].
  by apply HP.
Qed.

Lemma preserves_setPathOfAlias P alias path :
  (∀ st k p, p ≠ "" → P st → P (set_aliases <[k := p]> st)) →
  (∀ st k, P st → P (set_aliases (delete k) st)) →
  preserves P (setPathOfAlias E alias path).
Proof.
  intros Hins Hdel st H. unfold setPathOfAlias.
  destruct (truthy_str path); [|by apply Hdel].
  apply Hins; [apply resolve_nonempty|done].
Qed.

Lemma preserves_setApplication P a :
  (∀ st v, P st → P (set_app v st)) →
  (∀ st f, P st → P (set_disposed f st)) →
  preserves P (setApplication a).
Proof.
  intros Happ Hdisp. unfold setApplication, dispose.
  apply preserves_bind; [apply preserves_get_state|]. intros st0.
  destruct (is_null (_app st0) || is_null a); [|apply preserves_throw].
  apply preserves_bind; [|intros; apply preserves_modify; auto].
  destruct a, (_app st0); try apply preserves_ret. apply preserves_modify; auto.
Qed.

Lemma preserves_alloc P o :
  (∀ st f, P st → P (set_heap f st)) → preserves P (alloc o).
Proof. intros HP st H. by apply HP. Qed.

Lemma preserves_construct P c args :
  (∀ st f, P st → P (set_heap f st)) → preserves P (construct E c args).
Proof.
  intros HP. unfold construct. destruct c; try apply preserves_throw.
  destruct (ctor_fields E src args); [by apply preserves_alloc|apply preserves_throw].
Qed.

End Preservation.

(** ** Class importer *)

Section Importer.
Context (E : env).
Import JsString.

Lemma set_includePaths_id st : set_includePaths (_includePaths st) st = st.
Proof. by destruct st. Qed.

Lemma import_directory_eq alias path st :
  import_directory E alias path st
  = (Ret (VStr path),
     set_imports <[alias := path]>
       (set_includePaths (Some (with_include_path E path (_includePaths st))) st)).
Proof.
  unfold import_directory, with_include_path. unfold_M.
  destruct (_includePaths st) as [l|] eqn:Hl; simpl.
  - rewrite Hl. simpl. destruct (bool_decide (path ∈ l)); simpl; [|done].
    by rewrite <- Hl, set_includePaths_id.
  - by destruct (bool_decide (path ∈ [cwd E])).
Qed.


(** A directory import: the alias ends in the wildcard segment, was not
    imported before and resolves to [path]. *)
Lemma import_wildcard alias force st pos path st1 :
  truthy_str (_imports st !! alias) = false →
  lastIndexOf "." alias = Some pos →
  substring_from (pos + 1) alias = "*" →
  getPathOfAlias alias st = (Ret (Some (VStr path)), st1) →
  import E (VStr alias) force st
  = (Ret (VStr path),
     set_imports <[alias := path]>
       (set_includePaths (Some (with_include_path E path (_includePaths st1))) st1)).
Proof.
  intros Hnew Hpos Hstar Hres. unfold import. unfold_M.
  change (to_key (VStr alias)) with alias.
  rewrite truthy_js_get_str by (by eapply not_inherited_dotted_last).
  rewrite Hnew, Hpos, Hres, Hstar. simpl. apply import_directory_eq.
Qed.

(** What [import] keeps: any property that does not depend on the target,
    the alias table, the import cache and the class map, and that survives
    the addition of an include path. *)
Lemma preserves_import P alias force :
  (∀ st f, P st → P (set_target f st)) →
  (∀ st k p, p ≠ "" → P st → P (set_aliases <[k := p]> st)) →
  (∀ st f, P st → P (set_imports f st)) →
  (∀ st f, P st → P (set_classMap f st)) →
  (∀ st path, P st →
     P (set_includePaths (Some (with_include_path E path (_includePaths st))) st)) →
  preserves P (import E alias force).
Proof.
  intros Ht Ha Hi Hc Hp. unfold import.
  apply preserves_bind; [apply preserves_get_state|]. intros st0.
  destruct (truthy _); [apply preserves_ret|].
  destruct alias as [|a| | |]; try apply preserves_throw.
  destruct (lastIndexOf "." a) as [pos|].
  - apply preserves_bind; [by apply preserves_getPathOfAlias|].
    intros [[|path| | |]|]; try apply preserves_throw.
    destruct (negb _).
    + apply preserves_bind; [|intros; apply preserves_ret].
      destruct force; [|apply preserves_modify; auto].
      destruct (from_option isFile false _); [|apply preserves_throw].
      apply preserves_bind; [apply preserves_require|]. intros m.
      apply preserves_bind; apply preserves_modify || intros; auto.
      apply preserves_modify; auto.
    + intros st H. rewrite import_directory_eq. simpl. apply Hi, Hp, H.
  - apply preserves_bind; [|intros; apply preserves_ret].
    destruct force; [|apply preserves_ret].
    apply preserves_bind; [by apply preserves_proxy_get|]. intros v.
    destruct (truthy v); [apply preserves_modify; auto|apply preserves_ret].
Qed.

Lemma preserves_createComponent P config args :
  (∀ st f, P st → P (set_target f st)) →
  (∀ st k p, p ≠ "" → P st → P (set_aliases <[k := p]> st)) →
  (∀ st f, P st → P (set_imports f st)) →
  (∀ st f, P st → P (set_classMap f st)) →
  (∀ st f, P st → P (set_heap f st)) →
  (∀ st path, P st →
     P (set_includePaths (Some (with_include_path E path (_includePaths st))) st)) →
  preserves P (createComponent E config args).
Proof.
  intros Ht Ha Hi Hc Hh Hp. unfold createComponent.
  apply preserves_bind.
  { destruct config as [s|l].
    - apply preserves_bind; [by apply preserves_proxy_get|]. intros t.
      apply preserves_bind; [by apply preserves_alloc|]. intros l.
      apply preserves_ret.
    - apply preserves_bind; [apply preserves_read|]. intros o.
      destruct (has_own _ _); [|apply preserves_throw].
      apply preserves_bind; [apply preserves_modify; auto|]. intros.
      apply preserves_ret. }
  intros [type config']. simpl.
  apply preserves_bind; [by apply preserves_proxy_get|]. intros v.
  apply preserves_bind.
  { destruct (negb (truthy v)); [|apply preserves_ret].
    by apply preserves_import. }
  intros type'.
  apply preserves_bind; [by apply preserves_proxy_get|]. intros c.
  apply preserves_bind; [by apply preserves_construct|]. intros obj.
  apply preserves_bind; [apply preserves_read|]. intros cfg.
  apply preserves_bind; [apply preserves_read|]. intros o.
  apply preserves_bind; [apply preserves_modify; auto|]. intros.
  apply preserves_ret.
Qed.

End Importer.

(** *** What keeps a binding *)

Section Bindings.
Context (E : env).
Import JsString.


Lemma preserves_createApplication P app cfg :
  (∀ n, preserves P (proxy_get E n)) →
  (∀ st f, P st → P (set_heap f st)) →
  preserves P (createApplication E app cfg).
Proof.
  intros Hg Hh. unfold createApplication.
  apply preserves_bind.
  { destruct app; try apply preserves_ret. apply Hg. }
  intros [| |src| |]; try apply preserves_ret.
  apply preserves_bind; [by apply preserves_construct|]. intros. apply preserves_ret.
Qed.

Lemma preserves_clone P obj :
  (∀ st f, P st → P (set_heap f st)) → preserves P (clone obj).
Proof.
  intros Hh. unfold clone. apply preserves_bind; [apply preserves_read|].
  intros o. by apply preserves_alloc.
Qed.

Lemma preserves_extend_loop P target sources :
  (∀ st f, P st → P (set_heap f st)) → preserves P (extend_loop target sources).
Proof.
  intros Hh. induction sources as [|s rest IH]; simpl; [apply preserves_ret|].
  apply preserves_bind; [apply preserves_read|]. intros o.
  apply preserves_bind; [apply preserves_read|]. intros t.
  apply preserves_bind; [apply preserves_modify; auto|]. by intros.
Qed.

Lemma preserves_extend P sources :
  (∀ st f, P st → P (set_heap f st)) → preserves P (extend sources).
Proof.
  intros Hh. unfold extend. apply preserves_bind; [by apply preserves_alloc|].
  intros t. apply preserves_bind; [by apply preserves_extend_loop|].
  intros. apply preserves_ret.
Qed.


End Bindings.

(** *** What the specification says of the lazy resolution registry *)

Section LazyResolutionClaims.




(** C5: the check made under the debug flag compares the base name of the
    path the registry itself built from the requested name with that same
    name; the name of the file on disk is never read.  On a case-insensitive
    filesystem holding [/srv/app/models/User.js] (and no [user.js]), with
    the debug flag set, a reference to [user] binds that file's module and
    returns it; nothing is thrown. *)
Theorem C5_case_mismatch_not_detected :
  YIILA_DEBUG strict_env = true ∧
  fs_ignore_case strict_env = true ∧
  ("/srv/app/models/user.js" ∉ (fst <$> fs_entries strict_env)) ∧
  _includePaths (models_state strict_env) = Some ["/home/u"; "/srv/app/models"] ∧
  first_match strict_env "user" ["/home/u"; "/srv/app/models"]
  = Some ("/srv/app/models/user.js", VFun User_src) ∧
  proxy_get strict_env "user" (models_state strict_env)
  = (Ret (VFun User_src),
     set_target <["user" := VFun User_src]> (models_state strict_env)).
Proof.
  split; [reflexivity|]. split; [reflexivity|].
  split; [apply (bool_decide_unpack _); by vm_compute|].
  repeat split; reflexivity.
Qed.

End LazyResolutionClaims.


(** ** The paths of the alias table are never empty *)

Section AliasTableInvariant.

Lemma aliases_nonempty_insert st k p :
  p ≠ "" → aliases_nonempty st → aliases_nonempty (set_aliases <[k := p]> st).
Proof.
  intros Hp H k' p'. simpl. rewrite lookup_insert.
  case_decide; [by intros [= <-]|apply H].
Qed.

Lemma aliases_nonempty_delete st k :
  aliases_nonempty st → aliases_nonempty (set_aliases (delete k) st).
Proof.
  intros H k' p'. simpl. rewrite lookup_delete.
  case_decide; [done|apply H].
Qed.

Lemma aliases_nonempty_run_call E c st :
  aliases_nonempty st → aliases_nonempty (run_call E c st).
Proof.
  pose proof aliases_nonempty_insert as Hins.
  pose proof aliases_nonempty_delete as Hdel.
  assert (∀ st st', aliases_nonempty st → _aliases st' = _aliases st →
                    aliases_nonempty st') as Hsame.
  { intros st1 st2 Hst Heq k p. rewrite Heq. apply Hst. }
  destruct c; simpl.
  - apply preserves_setApplication; intros; by eapply Hsame.
  - by apply preserves_getPathOfAlias.
  - by apply preserves_setPathOfAlias.
  - apply preserves_import; intros; (by eapply Hsame) || by apply Hins.
  - apply preserves_proxy_get; intros; by eapply Hsame.
  - apply preserves_alloc; intros; by eapply Hsame.
  - apply preserves_createComponent; intros; (by eapply Hsame) || by apply Hins.
Qed.

(** In every state the module reaches, a registered alias has a non-empty
    path (the directory of the module itself is not the empty string). *)
Lemma aliases_nonempty_reachable E calls :
  __dirname E ≠ "" → aliases_nonempty (run_calls E calls).
Proof.
  intros Hdir. unfold run_calls.
  assert (aliases_nonempty (initial E)) as Hinit.
  { intros k p. simpl. rewrite lookup_singleton.
    case_decide; [by intros [= <-]|done]. }
  revert Hinit. generalize (initial E).
  induction calls as [|c calls IH]; intros st H; simpl; [done|].
  by apply IH, aliases_nonempty_run_call.
Qed.

End AliasTableInvariant.

(** *** What the specification says of the include path list *)

Section IncludePathClaims.
Import JsString.





End IncludePathClaims.

(** ** Component factory *)

Section Factory.
Context (E : env).

Lemma alloc_fresh st : heap st !! fresh (dom (heap st)) = None.
Proof. apply not_elem_of_dom, is_fresh. Qed.




(** With a string for descriptor, [createComponent] looks the class up and
    then uses the class itself, not its name, as the name to look up: when
    nothing is bound or can be found under the source text of the class,
    and no alias of that name was imported, the call throws. *)
Lemma createComponent_string_throws s src args st :
  target st !! s = Some (VFun src) →
  target st !! src = None → _coreClasses !! src = None →
  _classMap st !! src = None →
  first_match E src (default [] (_includePaths st)) = None →
  Object_prototype !! src = None →
  truthy_str (_imports st !! src) = false →
  fst (createComponent E (CfgString s) args st) = Throw TypeError.
Proof.
  intros Hs Hfree Hc Hm Hscan Hnot Himp. unfold createComponent. unfold_M.
  rewrite (proxy_get_bound E s (VFun src)) by done.
  unfold alloc at 1. simpl.
  set (st1 := set_heap _ st).
  rewrite (proxy_get_scan E src st1) by done.
  change (_includePaths st1) with (_includePaths st). rewrite Hscan.
  rewrite inherited_None by done. simpl.
  unfold import. unfold_M. simpl.
  change (_imports st1) with (_imports st).
  by rewrite truthy_js_get_str, Himp.
Qed.

End Factory.

(** *** What the specification says of the component factory *)

Section FactoryClaims.

(** C4: the string branch of [createComponent] assigns to [type] the class
    found under the name, not the name, and then looks it up as a name.
    The registry resolves [CLogger] to its class, and
    [createComponent('CLogger')] throws a [TypeError] (from [import], which
    is handed the class); the object descriptor [{'class': 'CLogger', ...}]
    does yield an instance of that class. *)
Theorem C4_string_descriptor_throws :
  fst (proxy_get demo_env "CLogger" (initial demo_env)) = Ret (VFun CLogger_src) ∧
  fst (createComponent demo_env (CfgString "CLogger") [] (initial demo_env))
  = Throw TypeError ∧
  fst (createComponent demo_env (CfgObject 1%positive) [] (descriptor_state demo_env))
  = Ret (VObj 2%positive) ∧
  heap (snd (createComponent demo_env (CfgObject 1%positive) []
               (descriptor_state demo_env))) !! 2%positive
  = Some {| proto := Some CLogger_src;
            props := {[ "routes" := VUndefined; "level" := VStr "info" ]} |}.
Proof. repeat split; by vm_compute. Qed.



End FactoryClaims.

(** ** The check made under the debug flag *)

Section DebugCheck.
Import JsString.

Lemma append_cons a s t : String a s +:+ t = String a (s +:+ t).
Proof. reflexivity. Qed.

Lemma append_assoc s t u : (s +:+ t) +:+ u = s +:+ (t +:+ u).
Proof. induction s as [|a s IH]; [done|]. rewrite !append_cons. by f_equal. Qed.

Lemma length_append s t :
  String.length (s +:+ t) = String.length s + String.length t.
Proof. induction s as [|a s IH]; [done|]. rewrite append_cons. simpl. by f_equal. Qed.

Lemma indexOf_append_None c s t :
  indexOf c s = None → indexOf c t = None → indexOf c (s +:+ t) = None.
Proof.
  intros Hs Ht. induction s as [|a s IH]; [done|]. rewrite append_cons.
  simpl in *. destruct (Ascii.eqb a c); [done|].
  destruct (indexOf c s); [done|]. by rewrite IH.
Qed.

Lemma split_append_sep c s t :
  split c (s +:+ String c t) = split c s ++ split c t.
Proof.
  induction s as [|a s IH].
  - change ("" +:+ String c t) with (String c t). simpl. by rewrite Ascii.eqb_refl.
  - rewrite append_cons. simpl. rewrite IH.
    destruct (Ascii.eqb a c); [done|].
    pose proof (split_not_nil c s). by destruct (split c s).
Qed.

Lemma ends_with_append c s t : t ≠ "" → ends_with c (s +:+ t) = ends_with c t.
Proof.
  intros Ht. induction s as [|a s IH]; [done|]. rewrite append_cons.
  simpl. rewrite IH. destruct (s +:+ t) eqn:Hst; [|done].
  by destruct s, t.
Qed.

Lemma ends_with_no_sep c s : indexOf c s = None → ends_with c s = false.
Proof.
  induction s as [|a s IH]; [done|]. simpl.
  destruct (Ascii.eqb a c); [done|]. destruct (indexOf c s); [done|].
  intros _. destruct s; [done|]. by apply IH.
Qed.

Lemma parts_ends_in_part x s :
  indexOf "/" x = None → x ≠ "" → ends_in_part x s →
  ∃ l, filter (λ p, Path.nonempty p = true) (split "/" s) = l ++ [x].
Proof.
  intros Hx Hne [->|[t ->]].
  - exists []. rewrite split_no_sep by done.
    rewrite filter_cons_True by (by apply nonempty_spec). done.
  - rewrite split_append_sep, (split_no_sep _ x) by done.
    rewrite filter_app, (filter_cons_True _ x) by (by apply nonempty_spec).
    by eexists.
Qed.

Lemma basename_ends_in_part x s :
  indexOf "/" x = None → x ≠ "" → ends_in_part x s → Path.basename s = x.
Proof.
  intros Hx Hne Hs. unfold Path.basename.
  destruct (parts_ends_in_part x s Hx Hne Hs) as [l ->]. apply last_last.
Qed.

Lemma concat_snoc sep (l : list string) x :
  l ≠ [] → String.concat sep (l ++ [x]) = String.concat sep l +:+ sep +:+ x.
Proof.
  induction l as [|a [|b l] IH]; intros Hl; [done|done|].
  change (String.concat sep ((a :: b :: l) ++ [x]))
    with (a +:+ sep +:+ String.concat sep ((b :: l) ++ [x])).
  rewrite IH by done.
  change (String.concat sep (a :: b :: l))
    with (a +:+ sep +:+ String.concat sep (b :: l)).
  by rewrite !append_assoc.
Qed.

Lemma concat_ends_in_part (l : list string) x :
  ends_in_part x (JsString.join "/" (l ++ [x])).
Proof.
  unfold JsString.join. destruct l as [|a l]; [by left|].
  right. rewrite concat_snoc by done. by eexists.
Qed.

Lemma normalize_loop_suffix l up kept :
  ∃ pre, fst (Path.normalize_loop l up kept) = pre ++ kept.
Proof.
  revert up kept. induction l as [|p l IH]; intros up kept; simpl.
  - by exists [].
  - destruct (String.eqb p "."); [apply IH|].
    destruct (String.eqb p ".."); [apply IH|].
    destruct up; [|apply IH].
    destruct (IH 0 (p :: kept)) as [pre ->]. exists (pre ++ [p]).
    by rewrite <- app_assoc.
Qed.

Lemma normalizeArray_snoc l x b :
  x ≠ "." → x ≠ ".." → ∃ l', Path.normalizeArray (l ++ [x]) b = l' ++ [x].
Proof.
  intros H1 H2. unfold Path.normalizeArray. rewrite rev_app_distr. simpl.
  apply String.eqb_neq in H1, H2. rewrite H1, H2.
  destruct (normalize_loop_suffix (rev l) 0 [x]) as [pre Hpre].
  destruct (Path.normalize_loop (rev l) 0 [x]) as [kept up]. simpl in Hpre. subst.
  destruct b; [|by eexists]. exists (repeat ".." up ++ pre). by rewrite app_assoc.
Qed.

(** Normalizing keeps the last part when it is a file name. *)
Lemma normalize_ends_in_part x s :
  indexOf "/" x = None → x ≠ "" → x ≠ "." → x ≠ ".." →
  ends_in_part x s → ends_in_part x (Path.normalize s).
Proof.
  intros Hx Hne H1 H2 Hs. unfold Path.normalize.
  assert (ends_with "/" s = false) as ->.
  { destruct Hs as [->|[t ->]]; [by apply ends_with_no_sep|].
    rewrite ends_with_append by done. simpl.
    destruct x; [done|]. by apply (ends_with_no_sep "/" (String _ _)). }
  destruct (parts_ends_in_part x s Hx Hne Hs) as [l ->].
  destruct (normalizeArray_snoc l x (negb (starts_with "/" s)) H1 H2) as [l' ->].
  pose proof (concat_ends_in_part l' x) as Hshape.
  set (path1 := JsString.join "/" (l' ++ [x])) in *.
  assert (Path.nonempty path1 = true) as Hp1.
  { apply nonempty_spec. destruct Hshape as [->|[t ->]]; [done|]. by destruct t. }
  rewrite Hp1. simpl. rewrite andb_false_r.
  destruct (starts_with "/" s).
  - right. destruct Hshape as [->|[t ->]].
    + by exists "".
    + exists ("/" +:+ t). by rewrite append_assoc.
  - done.
Qed.

Lemma file_name_facts name :
  indexOf "/" name = None →
  indexOf "/" (name +:+ ".js") = None ∧ name +:+ ".js" ≠ "" ∧
  name +:+ ".js" ≠ "." ∧ name +:+ ".js" ≠ "..".
Proof.
  intros Hn. split; [by apply indexOf_append_None|].
  repeat split; intros H%(f_equal String.length);
    rewrite length_append in H; simpl in H; lia.
Qed.

(** The base name of the path the scan builds for [name] is [name.js]. *)
Lemma basename_class_file dir name :
  indexOf "/" name = None →
  Path.basename (class_file dir name) = name +:+ ".js".
Proof.
  intros Hn. destruct (file_name_facts name Hn) as (Hx & Hne & H1 & H2).
  apply basename_ends_in_part; [done..|].
  unfold class_file, Path.join. apply normalize_ends_in_part; [done..|].
  rewrite string_args_cons_str.
  replace (Path.string_args [VStr (name +:+ ".js")]) with [name +:+ ".js"].
  - apply concat_ends_in_part.
  - unfold Path.string_args. simpl. by apply nonempty_spec in Hne as ->.
Qed.

Lemma first_match_file E name paths file m :
  first_match E name paths = Some (file, m) → ∃ dir, file = class_file dir name.
Proof.
  induction paths as [|dir rest IH]; simpl; [done|].
  destruct (load_file E (class_file dir name)); [|done].
  intros [= <- <-]. by eexists.
Qed.

(** For a name that is a file name (no slash in it), no reference throws
    [ClassFileMismatch], whatever the debug flag and the filesystem. *)
Lemma mismatch_never_reported E st name file :
  indexOf "/" name = None →
  fst (proxy_get E name st) ≠ Throw (ClassFileMismatch name file).
Proof.
  intros Hn.
  destruct (target st !! name) as [v|] eqn:H.
  { by rewrite (proxy_get_bound _ _ v). }
  destruct (_coreClasses !! name) as [rel|] eqn:Hc.
  { rewrite (proxy_get_core _ _ rel) by done. by destruct (require E _). }
  destruct (_classMap st !! name) as [f|] eqn:Hm.
  { rewrite (proxy_get_classMap _ _ f) by done. by destruct (require E _). }
  rewrite proxy_get_scan by done.
  destruct (first_match E name _) as [[f m]|] eqn:Hfirst; [|done].
  destruct (first_match_file _ _ _ _ _ Hfirst) as [dir ->].
  rewrite basename_class_file by done. rewrite String.eqb_refl.
  by rewrite andb_false_r.
Qed.

End DebugCheck.

(** * Further properties of [lib/index.js] *)

(** ** Steps and runs *)

Section StepsAndRuns.
Context (E : env).
Import JsString.

Lemma preserves_proxy_get_ins P name :
  (∀ st m, P st → P (set_target <[name := m]> st)) →
  preserves P (proxy_get E name).
Proof.
  intros HP st H. destruct (proxy_get_frame E name st) as [->|[m ->]]; [done|].
  by apply HP.
Qed.

(** [import] keeps what its steps keep. *)
Lemma preserves_import_via P alias force :
  (∀ n, preserves P (proxy_get E n)) →
  (∀ a, preserves P (getPathOfAlias a)) →
  (∀ st k m, P st → P (set_target <[k := m]> st)) →
  (∀ st s v, (lastIndexOf "." s = None → v = s) → P st →
             P (set_imports <[s := v]> st)) →
  (∀ st k v, P st → P (set_classMap <[k := v]> st)) →
  (∀ st path, P st →
     P (set_includePaths (Some (with_include_path E path (_includePaths st))) st)) →
  preserves P (import E alias force).
Proof.
  intros Hg Ha Ht Hi Hc Hp. unfold import.
  apply preserves_bind; [apply preserves_get_state|]. intros st0.
  destruct (truthy _); [apply preserves_ret|].
  destruct alias as [|a| | |]; try apply preserves_throw.
  destruct (lastIndexOf "." a) as [pos|] eqn:Hpos.
  - apply preserves_bind; [apply Ha|].
    intros [[|path| | |]|]; try apply preserves_throw.
    destruct (negb _).
    + apply preserves_bind; [|intros; apply preserves_ret].
      destruct force; [|apply preserves_modify; auto].
      destruct (from_option isFile false _); [|apply preserves_throw].
      apply preserves_bind; [apply preserves_require|]. intros m.
      apply preserves_bind; [apply preserves_modify; auto|]. intros _.
      apply preserves_modify. intros st. apply Hi. by rewrite Hpos.
    + intros st H. rewrite import_directory_eq. simpl. apply Hi; [by rewrite Hpos|].
      by apply Hp.
  - apply preserves_bind; [|intros; apply preserves_ret].
    destruct force; [|apply preserves_ret].
    apply preserves_bind; [apply Hg|]. intros v.
    destruct (truthy v); [|apply preserves_ret].
    apply preserves_modify. intros st. by apply Hi.
Qed.

(** [createComponent] keeps what references, imports and writes to the
    store keep. *)
Lemma preserves_createComponent_via P config args :
  (∀ n, preserves P (proxy_get E n)) →
  (∀ a f, preserves P (import E a f)) →
  (∀ st f, P st → P (set_heap f st)) →
  preserves P (createComponent E config args).
Proof.
  intros Hg Hi Hh. unfold createComponent.
  apply preserves_bind.
  { destruct config as [s|l].
    - apply preserves_bind; [apply Hg|]. intros t.
      apply preserves_bind; [by apply preserves_alloc|]. intros l.
      apply preserves_ret.
    - apply preserves_bind; [apply preserves_read|]. intros o.
      destruct (has_own _ _); [|apply preserves_throw].
      apply preserves_bind; [apply preserves_modify; auto|]. intros.
      apply preserves_ret. }
  intros [type config']. simpl.
  apply preserves_bind; [apply Hg|]. intros v.
  apply preserves_bind.
  { destruct (negb (truthy v)); [|apply preserves_ret]. apply Hi. }
  intros type'.
  apply preserves_bind; [apply Hg|]. intros c.
  apply preserves_bind; [by apply preserves_construct|]. intros obj.
  apply preserves_bind; [apply preserves_read|]. intros cfg.
  apply preserves_bind; [apply preserves_read|]. intros o.
  apply preserves_bind; [apply preserves_modify; auto|]. intros.
  apply preserves_ret.
Qed.

(** A property that holds when the module is loaded and is kept by every
    call holds in every state a client can reach. *)
Lemma run_calls_ext_invariant (P : state → Prop) :
  P (initial E) →
  (∀ c st, P st → P (run_call_ext E c st)) →
  ∀ calls, P (run_calls_ext E calls).
Proof.
  intros Hinit Hstep calls. unfold run_calls_ext.
  revert Hinit. generalize (initial E).
  induction calls as [|c calls IH]; intros st H; simpl; [done|].
  by apply IH, Hstep.
Qed.

End StepsAndRuns.

(** ** More on the alias resolver *)

Section AliasResolverMore.
Import JsString.

(** X1: resolving an alias a second time gives the same result and changes
    nothing any more: the first resolution has stored what it computed. *)
Theorem getPathOfAlias_twice (alias : string) (st : state) :
  getPathOfAlias alias (snd (getPathOfAlias alias st)) = getPathOfAlias alias st.
Proof.
  destruct (truthy (js_get_str (_aliases st) alias)) eqn:Hown.
  { rewrite (getPathOfAlias_exact _ _ Hown). simpl. by rewrite getPathOfAlias_exact. }
  assert (∀ st', st' = st → (∀ pos, indexOf "." alias = Some pos →
            truthy (js_get_str (_aliases st) (substring_to pos alias)) = false) →
          getPathOfAlias alias (snd (getPathOfAlias alias st)) = getPathOfAlias alias st)
    as Hmiss.
  { intros st' _ Hroot. rewrite (getPathOfAlias_miss _ _ Hown Hroot). simpl.
    by rewrite (getPathOfAlias_miss _ _ Hown Hroot). }
  destruct (indexOf "." alias) as [pos|] eqn:Hpos; [|by apply (Hmiss st)].
  destruct (truthy (js_get_str (_aliases st) (substring_to pos alias))) eqn:Hroot;
    [|apply (Hmiss st); [done|]; by intros pos' [= <-]].
  rewrite (getPathOfAlias_compound_read _ _ _ Hown Hpos Hroot). simpl.
  apply getPathOfAlias_own; [simpl; apply lookup_insert_eq|apply join_nonempty].
Qed.

Lemma indexOf_append_Some c s t pos :
  indexOf c s = Some pos → indexOf c (s +:+ t) = Some pos.
Proof.
  revert pos. induction s as [|a s IH]; intros pos; [done|].
  rewrite append_cons. simpl. destruct (Ascii.eqb a c); [done|].
  destruct (indexOf c s) as [i|]; [|done]. intros [= <-]. by rewrite (IH i).
Qed.

Lemma substring_append_l n m s t :
  n + m ≤ String.length s → substring n m (s +:+ t) = substring n m s.
Proof.
  revert n m. induction s as [|a s IH]; intros n m Hn; simpl in Hn.
  - assert (n = 0) as -> by lia. assert (m = 0) as -> by lia. by destruct t.
  - rewrite append_cons. destruct n as [|n]; simpl.
    + destruct m as [|m]; [done|]. f_equal. apply (IH 0). simpl. lia.
    + apply IH. lia.
Qed.

Lemma substring_full t : substring 0 (String.length t) t = t.
Proof. induction t as [|a t IH]; simpl; congruence. Qed.

Lemma substring_from_append n s t :
  n ≤ String.length s → substring_from n (s +:+ t) = substring_from n s +:+ t.
Proof.
  unfold substring_from. rewrite length_append.
  revert n. induction s as [|a s IH]; intros n Hn.
  - simpl in Hn. assert (n = 0) as -> by lia.
    change ("" +:+ t) with t. simpl. by rewrite Nat.sub_0_r, substring_full.
  - rewrite append_cons. destruct n as [|n].
    + specialize (IH 0 ltac:(lia)). rewrite !Nat.sub_0_r in *.
      simpl. by rewrite IH.
    + simpl in Hn. simpl. apply IH. lia.
Qed.

Lemma drop_wildcard_id segs :
  last segs ≠ Some "*" → drop_wildcard (VStr <$> segs) = VStr <$> segs.
Proof.
  intros Hlast. unfold drop_wildcard. rewrite fmap_last.
  destruct (last segs) as [s|]; [|done]. simpl.
  destruct (String.eqb_spec s "*"); [by subst|done].
Qed.

Lemma drop_wildcard_star segs :
  drop_wildcard (VStr <$> (segs ++ ["*"])) = (VStr <$> segs) ++ [VUndefined].
Proof.
  unfold drop_wildcard. rewrite fmap_last, last_snoc. simpl.
  rewrite fmap_app, length_app. simpl.
  replace (length (VStr <$> segs) + 1 - 1) with (length (VStr <$> segs) + 0) by lia.
  by rewrite insert_app_r.
Qed.

Lemma string_args_cons v l :
  Path.string_args (v :: l) = Path.string_args [v] ++ Path.string_args l.
Proof. unfold Path.string_args. change (v :: l) with ([v] ++ l). by rewrite omap_app. Qed.

(** X2: a directory alias [a.*] resolves to the path [a] resolves to, for a
    compound alias [a] (not ending in a wildcard itself) when neither has an
    entry of its own. *)
Theorem wildcard_alias_resolves_to_its_directory (st : state) (a p : string) :
  truthy_str (_aliases st !! a) = false →
  truthy_str (_aliases st !! (a +:+ ".*")) = false →
  last (split "." a) ≠ Some "*" →
  fst (getPathOfAlias a st) = Ret (Some (VStr p)) →
  fst (getPathOfAlias (a +:+ ".*") st) = Ret (Some (VStr p)).
Proof.
  intros Hown Hown' Hlast. unfold getPathOfAlias at 1. unfold_M.
  destruct (truthy (js_get_str (_aliases st) a)) eqn:Hread.
  { simpl. intros [= Hp]. rewrite Hp in Hread. apply js_get_str_VStr in Hp.
    rewrite Hp in Hown. simpl in *. congruence. }
  destruct (indexOf "." a) as [pos|] eqn:Hpos; [|done].
  destruct (truthy (js_get_str (_aliases st) (substring_to pos a))) eqn:Hroot; [|done].
  simpl. intros [= <-].
  pose proof (indexOf_lt _ _ _ Hpos) as Hlt.
  assert (indexOf "." (a +:+ ".*") = Some pos) as Hpos'
    by (by apply indexOf_append_Some).
  assert (substring_to pos (a +:+ ".*") = substring_to pos a) as Hsame.
  { unfold substring_to. by rewrite substring_append_l by (simpl; lia). }
  rewrite (getPathOfAlias_compound_read _ st pos); try done; simpl.
  - rewrite Hsame. do 3 f_equal. unfold Path.join. do 2 f_equal.
    rewrite (string_args_cons _ (drop_wildcard _)).
    rewrite (string_args_cons _ (drop_wildcard (VStr <$> split "." (substring_from _ a)))).
    f_equal.
    rewrite substring_from_append by lia.
    change (".*") with (String "." "*"). rewrite split_append_sep.
    change (split "." "*") with ["*"]. rewrite drop_wildcard_star.
    rewrite string_args_snoc_undefined, drop_wildcard_id; [done|].
    rewrite (split_indexOf _ _ _ Hpos) in Hlast.
    pose proof (split_not_nil "." (substring_from (pos + 1) a)).
    by destruct (split "." (substring_from (pos + 1) a)).
  - by rewrite truthy_js_get_str by (by eapply not_inherited_dotted).
  - by rewrite Hsame.
Qed.

Lemma wildcard_alias_resolves_to_its_directory_witness :
  fst (getPathOfAlias ("app.models" +:+ ".*") (app_state demo_env))
  = Ret (Some (VStr "/srv/app/models")).
Proof.
  apply (wildcard_alias_resolves_to_its_directory (app_state demo_env) "app.models");
    [reflexivity|reflexivity|discriminate|reflexivity].
Defined.

(** X22: for a compound alias that has no entry of its own in the alias
    table and whose root segment is registered, [getPathOfAlias] joins the
    root's path with the dot-delimited segments of the remainder, a
    trailing wildcard segment dropped, stores the result under the full
    alias and returns it; an alias with no entry of its own whose root
    segment is not registered resolves to [false] (here [None]), the state
    unchanged and nothing thrown, when neither the alias nor its root
    segment is a name [Object.prototype] defines. *)
Theorem compound_alias_joins_root_path (st : state) (alias : string) :
  truthy_str (_aliases st !! alias) = false →
  (∀ root segs root_path,
      split "." alias = root :: segs → segs ≠ [] →
      _aliases st !! root = Some root_path → root_path ≠ "" →
      getPathOfAlias alias st
      = (Ret (Some (VStr (Path.join (VStr <$> root_path :: segments_to_join segs)))),
         set_aliases
           <[alias := Path.join (VStr <$> root_path :: segments_to_join segs)]> st)) ∧
  (Object_prototype !! alias = None →
   (∀ root segs, split "." alias = root :: segs → segs ≠ [] →
                 truthy_str (_aliases st !! root) = false ∧
                 Object_prototype !! root = None) →
   getPathOfAlias alias st = (Ret None, st)).
Proof.
  intros Hown. split.
  - intros root segs r Hsplit Hsegs Hroot Hne.
    destruct (split_root _ _ _ Hsplit Hsegs) as (pos & Hpos & -> & ->).
    rewrite (getPathOfAlias_compound _ _ _ _ Hown Hpos Hroot Hne).
    by rewrite join_drop_wildcard.
  - intros Hnot Hroot. apply getPathOfAlias_miss; [by rewrite truthy_js_get_str|].
    intros pos Hpos. destruct (split_root_inv _ _ Hpos) as (segs & Hsplit & Hsegs).
    destruct (Hroot _ _ Hsplit Hsegs) as [Hfalsy Hnotr].
    by rewrite truthy_js_get_str.
Qed.

Lemma compound_alias_joins_root_path_witness :
  getPathOfAlias "app.pkg.*" (app_state demo_env)
  = (Ret (Some (VStr (Path.join (VStr <$> "/srv/app" :: segments_to_join ["pkg"; "*"])))),
     set_aliases
       <["app.pkg.*" := Path.join (VStr <$> "/srv/app" :: segments_to_join ["pkg"; "*"])]>
       (app_state demo_env)) ∧
  getPathOfAlias "nowhere.models.User" (app_state demo_env)
  = (Ret None, app_state demo_env).
Proof.
  split.
  - apply (proj1 (compound_alias_joins_root_path (app_state demo_env) "app.pkg.*" eq_refl)
             "app" ["pkg"; "*"] "/srv/app");
      [reflexivity|discriminate|reflexivity|discriminate].
  - apply (proj2 (compound_alias_joins_root_path (app_state demo_env)
                    "nowhere.models.User" eq_refl)); [reflexivity|].
    intros root segs [= <- <-] _. split; reflexivity.
Defined.

End AliasResolverMore.

(** ** The alias table holds absolute paths *)

Section AbsolutePaths.
Import JsString.

Lemma starts_with_append c s t :
  s ≠ "" → starts_with c (s +:+ t) = starts_with c s.
Proof. by destruct s. Qed.

Lemma starts_with_nonempty c s : starts_with c s = true → s ≠ "".
Proof. by destruct s. Qed.

Lemma normalize_absolute p :
  starts_with "/" p = true → starts_with "/" (Path.normalize p) = true.
Proof. intros H. unfold Path.normalize. by rewrite H. Qed.

Lemma join_absolute r args :
  starts_with "/" r = true → starts_with "/" (Path.join (VStr r :: args)) = true.
Proof.
  intros Hr. pose proof (starts_with_nonempty _ _ Hr) as Hne.
  unfold Path.join. apply normalize_absolute.
  rewrite string_args_cons_str. apply nonempty_spec in Hne as Hne'. rewrite Hne'.
  simpl. unfold JsString.join. simpl.
  destruct (Path.string_args args); [done|]. by rewrite starts_with_append.
Qed.

Lemma resolve_absolute c path :
  starts_with "/" c = true → starts_with "/" (Path.resolve c [c; path]) = true.
Proof.
  intros Hc. pose proof (starts_with_nonempty _ _ Hc) as Hne%nonempty_spec.
  unfold Path.resolve. change (rev [c; path] ++ [c]) with [path; c; c].
  assert (∃ rp, Path.resolve_loop [path; c; c] "" = (rp, true)) as [rp ->].
  { simpl. destruct (Path.nonempty path); [destruct (starts_with "/" path)|];
      rewrite ?Hne, ?Hc; by eexists. }
  simpl negb. cbv iota.
  match goal with |- context [JsString.join "/" ?l] =>
    generalize (JsString.join "/" l) end.
  intros x. change ("/" +:+ x) with (String "/" x). done.
Qed.

Lemma indexOf_substring_to c s pos :
  indexOf c s = Some pos → indexOf c (substring_to pos s) = None.
Proof.
  revert pos. induction s as [|a s IH]; intros pos; simpl; [done|].
  destruct (Ascii.eqb a c) eqn:Hac; [by intros [= <-]|].
  destruct (indexOf c s) as [i|]; simpl; [|done]. intros [= <-].
  unfold substring_to in *. simpl. by rewrite Hac, (IH i).
Qed.

Lemma root_segment_dotted alias pos :
  indexOf "." alias = Some pos → root_segment alias = substring_to pos alias.
Proof. unfold root_segment. by intros ->. Qed.

Lemma root_segment_simple alias : indexOf "." alias = None → root_segment alias = alias.
Proof. unfold root_segment. by intros ->. Qed.

Lemma aliases_absolute_same st st' :
  aliases_absolute st → _aliases st' = _aliases st → aliases_absolute st'.
Proof. intros H Heq k p. rewrite Heq. apply H. Qed.

Lemma aliases_absolute_insert st k p :
  (Object_prototype !! root_segment k = None → starts_with "/" p = true) →
  aliases_absolute st →
  aliases_absolute (set_aliases <[k := p]> st).
Proof.
  intros Hp H k' p'. simpl. rewrite lookup_insert.
  case_decide; [subst; by intros [= <-]|apply H].
Qed.

Lemma aliases_absolute_getPathOfAlias alias :
  preserves aliases_absolute (getPathOfAlias alias).
Proof.
  intros st H. unfold getPathOfAlias. unfold_M.
  destruct (truthy (js_get_str (_aliases st) alias)); [done|].
  destruct (indexOf "." alias) as [pos|] eqn:Hpos; [|done].
  destruct (truthy (js_get_str (_aliases st) (substring_to pos alias))) eqn:Hroot;
    [|done].
  simpl. apply aliases_absolute_insert; [|done].
  rewrite (root_segment_dotted _ _ Hpos). intros Hnot.
  apply truthy_js_get_str_inv in Hroot as [(r & Hr & _)|(v & _ & Hv)]; [|congruence].
  rewrite (js_get_str_own _ _ r) by done. apply join_absolute.
  apply (H _ _ Hr). by rewrite root_segment_simple by (by apply indexOf_substring_to).
Qed.

Lemma aliases_absolute_setPathOfAlias E alias path :
  starts_with "/" (cwd E) = true →
  preserves aliases_absolute (setPathOfAlias E alias path).
Proof.
  intros Hc st H. unfold setPathOfAlias. destruct (truthy_str path); simpl.
  - apply aliases_absolute_insert; [intros _; by apply resolve_absolute|done].
  - intros k p. simpl. rewrite lookup_delete. case_decide; [done|apply H].
Qed.

Lemma aliases_absolute_import E alias force :
  preserves aliases_absolute (import E alias force).
Proof.
  apply preserves_import_via;
    try (intros; by eapply aliases_absolute_same).
  - intros n. apply preserves_proxy_get. intros; by eapply aliases_absolute_same.
  - apply aliases_absolute_getPathOfAlias.
Qed.

Lemma aliases_absolute_run_call_ext E c st :
  starts_with "/" (cwd E) = true →
  aliases_absolute st → aliases_absolute (run_call_ext E c st).
Proof.
  intros Hc.
  assert (∀ n, preserves aliases_absolute (proxy_get E n)) as Hget.
  { intros n. apply preserves_proxy_get. intros; by eapply aliases_absolute_same. }
  destruct c as [[]| | |]; simpl.
  - apply preserves_setApplication; intros; by eapply aliases_absolute_same.
  - apply aliases_absolute_getPathOfAlias.
  - by apply aliases_absolute_setPathOfAlias.
  - apply aliases_absolute_import.
  - apply Hget.
  - apply preserves_alloc. intros; by eapply aliases_absolute_same.
  - apply preserves_createComponent_via; [done|intros; apply aliases_absolute_import|].
    intros; by eapply aliases_absolute_same.
  - apply preserves_createApplication; [done|]. intros; by eapply aliases_absolute_same.
  - apply preserves_clone. intros; by eapply aliases_absolute_same.
  - apply preserves_extend. intros; by eapply aliases_absolute_same.
Qed.

(** A resolution of an alias whose root segment is not inherited returns a
    string or [false]. *)
Lemma getPathOfAlias_root_not_inherited alias st p st1 :
  Object_prototype !! root_segment alias = None →
  getPathOfAlias alias st = (Ret (Some p), st1) → ∃ s, p = VStr s.
Proof.
  intros Hnot Hg. destruct (indexOf "." alias) as [pos|] eqn:Hpos.
  { by eapply getPathOfAlias_dotted. }
  rewrite (root_segment_simple _ Hpos) in Hnot. revert Hg.
  unfold getPathOfAlias. unfold_M. rewrite Hpos.
  destruct (truthy (js_get_str (_aliases st) alias)) eqn:Hread; [|done].
  intros [= <- <-].
  apply truthy_js_get_str_inv in Hread as [(s & Hs & _)|(v & _ & Hv)]; [|congruence].
  exists s. by apply js_get_str_own.
Qed.

(** X3: in a process whose working directory and module directory are
    absolute paths, what [getPathOfAlias] returns, after whatever calls,
    for an alias whose root segment is not a name [Object.prototype]
    defines is an absolute path.  (Under an inherited root segment the
    remainder alone is joined, see [getPathOfAlias_inherited_root].) *)
Theorem resolved_paths_are_absolute
    (E : env) (calls : list call_ext) (alias : string) (p : value) :
  starts_with "/" (cwd E) = true →
  starts_with "/" (__dirname E) = true →
  Object_prototype !! root_segment alias = None →
  fst (getPathOfAlias alias (run_calls_ext E calls)) = Ret (Some p) →
  ∃ s, p = VStr s ∧ starts_with "/" s = true.
Proof.
  intros Hc Hd Hnot Hres.
  assert (aliases_absolute (run_calls_ext E calls)) as Hinv.
  { apply run_calls_ext_invariant.
    - intros k q. simpl. rewrite lookup_singleton. case_decide; [by intros [= <-]|done].
    - intros c st. by apply aliases_absolute_run_call_ext. }
  apply (aliases_absolute_getPathOfAlias alias) in Hinv.
  destruct (getPathOfAlias alias (run_calls_ext E calls)) as [r st1] eqn:Hg.
  simpl in Hres. subst r.
  destruct (getPathOfAlias_root_not_inherited _ _ _ _ Hnot Hg) as [s ->].
  destruct (getPathOfAlias_Some_cached _ _ _ _ Hg) as [Hcached _].
  exists s. split; [done|]. by apply (Hinv _ _ Hcached).
Qed.

Lemma resolved_paths_are_absolute_witness :
  ∃ s, VStr "/home/u/rel/dir/x" = VStr s ∧ starts_with "/" s = true.
Proof.
  apply (resolved_paths_are_absolute demo_env
           [CallBase (CallSetPathOfAlias "app" (Some "rel/dir"))] "app.x");
    reflexivity.
Defined.

End AbsolutePaths.

(** ** More on the class importer *)

Section ImporterCases.
Context (E : env).
Import JsString.

Lemma isFile_load_file p :
  from_option isFile false (statSync E p)
  = match load_file E p with Some _ => true | None => false end.
Proof. unfold load_file. by destruct (statSync E p) as [[m|]|]. Qed.

(** For an alias with a dot, the read of the import cache sees the own
    property. *)
Lemma imports_read_dotted a pos st :
  lastIndexOf "." a = Some pos →
  truthy (js_get_str (_imports st) a) = truthy_str (_imports st !! a).
Proof. intros H. apply truthy_js_get_str. by eapply not_inherited_dotted_last. Qed.

(** The import cache answers first, with an own property or an inherited
    one. *)
Lemma import_memo alias force st :
  truthy (js_get_str (_imports st) (to_key alias)) = true →
  import E alias force st = (Ret (js_get_str (_imports st) (to_key alias)), st).
Proof. intros H. unfold import. unfold_M. by rewrite H. Qed.

Lemma import_memo_own a force st s :
  _imports st !! a = Some s → s ≠ "" →
  import E (VStr a) force st = (Ret (VStr s), st).
Proof.
  intros Hs Hne. rewrite import_memo; change (to_key (VStr a)) with a;
    rewrite (js_get_str_own _ _ s) by done; [done|]. simpl. by apply nonempty_spec.
Qed.

(** A name without a dot. *)
Lemma import_simple a force st :
  truthy (js_get_str (_imports st) a) = false →
  lastIndexOf "." a = None →
  import E (VStr a) force st
  = if force then
      match proxy_get E a st with
      | (Ret v, st') => (Ret (VStr a), if truthy v then set_imports <[a := a]> st' else st')
      | (Throw e, st') => (Throw e, st')
      end
    else (Ret (VStr a), st).
Proof.
  intros Hnew Hpos. unfold import. unfold_M. change (to_key (VStr a)) with a.
  rewrite Hnew, Hpos. destruct force; [|done].
  destruct (proxy_get E a st) as [[v|e] st']; [|done]. by destruct (truthy v).
Qed.

Lemma getPathOfAlias_None_state a st r st1 :
  getPathOfAlias a st = (r, st1) → r = Ret None → st1 = st.
Proof.
  unfold getPathOfAlias. unfold_M.
  destruct (truthy (js_get_str (_aliases st) a)); [intros; by simplify_eq|].
  destruct (indexOf "." a) as [pos|]; [|intros; by simplify_eq].
  destruct (truthy (js_get_str (_aliases st) (substring_to pos a)));
    simpl; intros; by simplify_eq.
Qed.

(** An alias that does not resolve. *)
Lemma import_unresolved a force st pos :
  truthy_str (_imports st !! a) = false →
  lastIndexOf "." a = Some pos →
  fst (getPathOfAlias a st) = Ret None →
  import E (VStr a) force st = (Throw (InvalidAlias a), st).
Proof.
  intros Hnew Hpos Hres. unfold import. unfold_M. change (to_key (VStr a)) with a.
  rewrite (imports_read_dotted _ _ _ Hpos), Hnew, Hpos.
  destruct (getPathOfAlias a st) as [r st1] eqn:Hg. simpl in Hres.
  rewrite (getPathOfAlias_None_state _ _ _ _ Hg Hres). by subst r.
Qed.

(** A class alias: the last segment is a class name. *)
Lemma import_class a force st pos path st1 :
  truthy_str (_imports st !! a) = false →
  lastIndexOf "." a = Some pos →
  substring_from (pos + 1) a ≠ "*" →
  getPathOfAlias a st = (Ret (Some (VStr path)), st1) →
  import E (VStr a) force st
  = if force then
      match load_file E (path +:+ ".js") with
      | Some m =>
          (Ret (VStr (substring_from (pos + 1) a)),
           set_imports <[a := substring_from (pos + 1) a]>
             (set_target <[substring_from (pos + 1) a := m]> st1))
      | None => (Throw (InvalidAliasFile a), st1)
      end
    else
      (Ret (VStr (substring_from (pos + 1) a)),
       set_classMap <[substring_from (pos + 1) a := path +:+ ".js"]> st1).
Proof.
  intros Hnew Hpos Hcls Hres. unfold import. unfold_M. change (to_key (VStr a)) with a.
  rewrite (imports_read_dotted _ _ _ Hpos), Hnew, Hpos, Hres.
  apply String.eqb_neq in Hcls. rewrite Hcls. simpl.
  destruct force; [|done]. rewrite isFile_load_file. unfold require_.
  destruct (load_file E (path +:+ ".js")) as [m|] eqn:Hfile; [|done].
  by rewrite (require_of_file E _ m).
Qed.

(** A value that is not a string and has no entry in the import cache. *)
Lemma import_not_a_string alias force st :
  truthy (js_get_str (_imports st) (to_key alias)) = false →
  (∀ s, alias ≠ VStr s) →
  import E alias force st = (Throw TypeError, st).
Proof.
  intros Hnew Hns. unfold import. unfold_M. rewrite Hnew.
  destruct alias; try done. by destruct (Hns s).
Qed.

(** What [getPathOfAlias] gives [import]. *)
Lemma getPathOfAlias_import_cases a pos st :
  lastIndexOf "." a = Some pos →
  (∃ path st1, getPathOfAlias a st = (Ret (Some (VStr path)), st1)) ∨
  (∃ st1, getPathOfAlias a st = (Ret None, st1)).
Proof.
  intros [pos' Hpos']%lastIndexOf_Some_indexOf. by eapply getPathOfAlias_dotted_cases.
Qed.

(** A reference that returns, returns the same when made again. *)
Lemma proxy_get_twice name v st st1 :
  proxy_get E name st = (Ret v, st1) → proxy_get E name st1 = (Ret v, st1).
Proof.
  intros Hres.
  destruct (target st !! name) as [w|] eqn:H.
  { rewrite (proxy_get_bound _ _ w) in Hres by done. simplify_eq.
    by apply proxy_get_bound. }
  assert (∀ m, (Ret m, set_target <[name := m]> st) = (Ret v, st1) →
               proxy_get E name st1 = (Ret v, st1)) as Hbound.
  { intros m [= <- <-]. apply proxy_get_bound. simpl. by rewrite lookup_insert_eq. }
  destruct (_coreClasses !! name) as [rel|] eqn:Hc.
  { rewrite (proxy_get_core _ _ rel) in Hres by done.
    destruct (require E _); [by eapply Hbound|done]. }
  destruct (_classMap st !! name) as [f|] eqn:Hm.
  { rewrite (proxy_get_classMap _ _ f) in Hres by done.
    destruct (require E _); [by eapply Hbound|done]. }
  pose proof Hres as Hres'. rewrite proxy_get_scan in Hres by done.
  destruct (first_match E name _) as [[f m]|]; [|by simplify_eq].
  destruct (YIILA_DEBUG E && _); [done|by eapply Hbound].
Qed.

Lemma proxy_get_imports name st :
  _imports (snd (proxy_get E name st)) = _imports st.
Proof. by destruct (proxy_get_frame E name st) as [->|[m ->]]. Qed.

End ImporterCases.

Section ImporterMore.
Context (E : env).
Import JsString.

(** A reference reads the target, the class map and the include paths
    only: a change [g] of the rest of the state commutes with it. *)
Lemma proxy_get_commutes (g : state → state) name st :
  (∀ s, target (g s) = target s) →
  (∀ s, _classMap (g s) = _classMap s) →
  (∀ s, _includePaths (g s) = _includePaths s) →
  (∀ s k m, g (set_target <[k := m]> s) = set_target <[k := m]> (g s)) →
  proxy_get E name (g st) = ((proxy_get E name st).1, g (proxy_get E name st).2).
Proof.
  intros Ht Hm Hp Hg.
  destruct (target st !! name) as [w|] eqn:H.
  { rewrite !(proxy_get_bound _ _ w); by rewrite ?Ht. }
  destruct (_coreClasses !! name) as [rel|] eqn:Hc.
  { rewrite !(proxy_get_core _ _ rel) by (by rewrite ?Ht).
    destruct (require E _); simpl; by rewrite ?Hg. }
  destruct (_classMap st !! name) as [f|] eqn:Hcm.
  { rewrite !(proxy_get_classMap _ _ f) by (by rewrite ?Ht, ?Hm).
    destruct (require E _); simpl; by rewrite ?Hg. }
  rewrite !proxy_get_scan by (by rewrite ?Ht, ?Hm). rewrite Hp.
  destruct (first_match E name _) as [[f m]|]; simpl; by rewrite ?Hg.
Qed.

Lemma set_imports_insert_twice k v st :
  set_imports <[k := v]> (set_imports <[k := v]> st) = set_imports <[k := v]> st.
Proof. destruct st. unfold set_imports. simpl. f_equal. apply insert_insert_eq. Qed.

Lemma set_classMap_insert_twice k v st :
  set_classMap <[k := v]> (set_classMap <[k := v]> st) = set_classMap <[k := v]> st.
Proof. destruct st. unfold set_classMap. simpl. f_equal. apply insert_insert_eq. Qed.

Lemma bind_class_twice a cn m st :
  set_imports <[a := cn]>
    (set_target <[cn := m]> (set_imports <[a := cn]> (set_target <[cn := m]> st)))
  = set_imports <[a := cn]> (set_target <[cn := m]> st).
Proof.
  destruct st. unfold set_imports, set_target. simpl.
  f_equal; apply insert_insert_eq.
Qed.

(** A resolved alias resolves the same in a state with the same alias
    table. *)
Lemma getPathOfAlias_cached_in a st path stg st1 :
  getPathOfAlias a st = (Ret (Some (VStr path)), stg) →
  _aliases st1 = _aliases stg →
  getPathOfAlias a st1 = (Ret (Some (VStr path)), st1).
Proof.
  intros Hg Heq. destruct (getPathOfAlias_Some_cached _ _ _ _ Hg) as [Hc Hne].
  apply getPathOfAlias_own; [by rewrite Heq|done].
Qed.

Lemma getPathOfAlias_imports a st :
  _imports (snd (getPathOfAlias a st)) = _imports st.
Proof. by destruct (getPathOfAlias_frame a st) as [->|(p & _ & ->)]. Qed.

(** X4: an import that has returned returns the same when repeated with the
    same arguments, and the repetition changes nothing. *)
Theorem import_twice (alias : value) (force : bool) (st st1 : state) (r : value) :
  import E alias force st = (Ret r, st1) →
  import E alias force st1 = (Ret r, st1).
Proof.
  intros Hres.
  destruct (truthy (js_get_str (_imports st) (to_key alias))) eqn:Hmemo.
  { rewrite import_memo in Hres by done. simplify_eq. by rewrite import_memo. }
  destruct alias as [|a|src|l|];
    try (by rewrite import_not_a_string in Hres).
  change (to_key (VStr a)) with a in Hmemo.
  destruct (lastIndexOf "." a) as [pos|] eqn:Hpos.
  - rewrite (imports_read_dotted _ _ _ Hpos) in Hmemo.
    destruct (getPathOfAlias_import_cases a pos st Hpos) as [(path & stg & Hg)|[stg Hg]].
    + pose proof (getPathOfAlias_imports a st) as Himp. rewrite Hg in Himp. simpl in Himp.
      destruct (getPathOfAlias_Some_cached _ _ _ _ Hg) as [_ Hne].
      destruct (decide (substring_from (pos + 1) a = "*")) as [Hstar|Hcls].
      * rewrite (import_wildcard E a force st pos path stg) in Hres by done.
        simplify_eq. apply import_memo_own; [simpl; apply lookup_insert_eq|done].
      * rewrite (import_class E a force st pos path stg) in Hres by done.
        destruct force.
        -- destruct (load_file E (path +:+ ".js")) as [m|] eqn:Hfile; [|done].
           simplify_eq.
           match goal with |- import _ _ _ ?s = _ => set (st1 := s) end.
           destruct (truthy_str (_imports st1 !! a)) eqn:Hmemo1.
           { unfold st1 in Hmemo1. simpl in Hmemo1. rewrite lookup_insert_eq in Hmemo1.
             apply import_memo_own; [simpl; apply lookup_insert_eq|].
             by apply nonempty_spec. }
           rewrite (import_class E a true st1 pos path st1); try done.
           ++ rewrite Hfile. unfold st1. by rewrite bind_class_twice.
           ++ by apply (getPathOfAlias_cached_in a st path stg).
        -- simplify_eq.
           match goal with |- import _ _ _ ?s = _ => set (st1 := s) end.
           rewrite (import_class E a false st1 pos path st1); try done.
           ++ unfold st1. by rewrite set_classMap_insert_twice.
           ++ unfold st1. simpl. by rewrite Himp.
           ++ by apply (getPathOfAlias_cached_in a st path stg).
    + rewrite (import_unresolved E a force st pos) in Hres; [done..|by rewrite Hg].
  - rewrite import_simple in Hres by done. destruct force; last first.
    { injection Hres as <- <-. by rewrite import_simple. }
    destruct (proxy_get E a st) as [[v|e] st'] eqn:Hp; [|done].
    pose proof (proxy_get_twice E _ _ _ _ Hp) as Htwice.
    pose proof (proxy_get_imports E a st) as Himp. rewrite Hp in Himp. simpl in Himp.
    destruct (truthy v) eqn:Hv; injection Hres as <- <-.
    + match goal with |- import _ _ _ ?s = _ => set (st1 := s) end.
      destruct (truthy (js_get_str (_imports st1) a)) eqn:Hmemo1.
      { rewrite import_memo by done. change (to_key (VStr a)) with a.
        unfold st1. simpl. by rewrite (js_get_str_own _ _ a) by apply lookup_insert_eq. }
      rewrite import_simple by done. unfold st1.
      rewrite (proxy_get_commutes (set_imports <[a := a]>)) by done.
      rewrite Htwice. simpl. rewrite Hv. by rewrite set_imports_insert_twice.
    + rewrite import_simple by (by rewrite ?Himp). by rewrite Htwice, Hv.
Qed.

End ImporterMore.

Lemma import_twice_witness :
  import demo_env (VStr "app.models.*") false (models_state demo_env)
  = (Ret (VStr "/srv/app/models"), models_state demo_env).
Proof.
  apply (import_twice demo_env (VStr "app.models.*") false (app_state demo_env)).
  reflexivity.
Defined.

Section ImporterErrors.
Context (E : env).
Import JsString.

(** A reference that throws: the loader's exception, the state as it was,
    or the report of a file name mismatch, made after the binding. *)
Lemma proxy_get_throw_cases name e st st1 :
  proxy_get E name st = (Throw e, st1) →
  (∃ p, e = ModuleNotFound p ∧ st1 = st) ∨
  (∃ f m, e = ClassFileMismatch name f ∧ st1 = set_target <[name := m]> st).
Proof.
  intros Hres.
  destruct (target st !! name) as [w|] eqn:H.
  { by rewrite (proxy_get_bound _ _ w) in Hres. }
  destruct (_coreClasses !! name) as [rel|] eqn:Hc.
  { rewrite (proxy_get_core _ _ rel) in Hres by done.
    destruct (require E _); [done|]. left. simplify_eq. by eexists. }
  destruct (_classMap st !! name) as [f|] eqn:Hm.
  { rewrite (proxy_get_classMap _ _ f) in Hres by done.
    destruct (require E _); [done|]. left. simplify_eq. by eexists. }
  rewrite proxy_get_scan in Hres by done.
  destruct (first_match E name _) as [[f m]|]; [|done].
  destruct (YIILA_DEBUG E && _); [|done]. right. simplify_eq. by do 2 eexists.
Qed.

Lemma getPathOfAlias_keeps a st :
  target (snd (getPathOfAlias a st)) = target st ∧
  _classMap (snd (getPathOfAlias a st)) = _classMap st ∧
  _includePaths (snd (getPathOfAlias a st)) = _includePaths st ∧
  heap (snd (getPathOfAlias a st)) = heap st.
Proof. by destruct (getPathOfAlias_frame a st) as [->|(p & _ & ->)]. Qed.

(** X5: what an import that throws leaves behind.  The state is the one
    before the call, with two exceptions: a forced import of a class whose
    file is missing has resolved the alias first, and the state is the one
    [getPathOfAlias] leaves (the alias table may hold the resolved path);
    and the report of a file name mismatch is made after the binding.  The
    import cache, the class map, the include path list and the store are
    as before in every case. *)
Theorem failed_import_leaves
    (alias : value) (force : bool) (st st1 : state) (e : error) :
  import E alias force st = (Throw e, st1) →
  match e with
  | InvalidAliasFile a => alias = VStr a ∧ st1 = snd (getPathOfAlias a st)
  | ClassFileMismatch n f => alias = VStr n ∧ ∃ m, st1 = set_target <[n := m]> st
  | _ => st1 = st
  end ∧
  _imports st1 = _imports st ∧ _classMap st1 = _classMap st ∧
  _includePaths st1 = _includePaths st ∧ heap st1 = heap st.
Proof.
  intros Hres.
  destruct (truthy (js_get_str (_imports st) (to_key alias))) eqn:Hmemo.
  { by rewrite import_memo in Hres. }
  destruct alias as [|a|src|l|];
    try (rewrite import_not_a_string in Hres by done; by simplify_eq).
  change (to_key (VStr a)) with a in Hmemo.
  destruct (lastIndexOf "." a) as [pos|] eqn:Hpos.
  - rewrite (imports_read_dotted _ _ _ Hpos) in Hmemo.
    destruct (getPathOfAlias_import_cases a pos st Hpos) as [(path & stg & Hg)|[stg Hg]].
    + pose proof (getPathOfAlias_imports a st) as Himp.
      pose proof (getPathOfAlias_keeps a st) as (Ht & Hc & Hp & Hh).
      rewrite Hg in Himp, Ht, Hc, Hp, Hh. simpl in *.
      destruct (decide (substring_from (pos + 1) a = "*")) as [Hstar|Hcls].
      * by rewrite (import_wildcard E a force st pos path stg) in Hres.
      * rewrite (import_class E a force st pos path stg) in Hres by done.
        destruct force; [|done].
        destruct (load_file E (path +:+ ".js")); [done|]. simplify_eq.
        by rewrite Hg.
    + rewrite (import_unresolved E a force st pos) in Hres; [|done..|by rewrite Hg].
      by simplify_eq.
  - rewrite import_simple in Hres by done. destruct force; [|done].
    destruct (proxy_get E a st) as [[v|e'] st'] eqn:Hp; [by destruct (truthy v)|].
    simplify_eq.
    destruct (proxy_get_throw_cases _ _ _ _ Hp) as [(p & -> & ->)|(f & m & -> & ->)];
      [done|]. split; [|done]. split; [done|]. by exists m.
Qed.




End ImporterErrors.

Lemma failed_import_leaves_witness :
  (VStr "app.models.Ghost" = VStr "app.models.Ghost" ∧
   snd (import demo_env (VStr "app.models.Ghost") true (app_state demo_env))
   = snd (getPathOfAlias "app.models.Ghost" (app_state demo_env))) ∧
  _imports (snd (import demo_env (VStr "app.models.Ghost") true (app_state demo_env)))
  = _imports (app_state demo_env) ∧
  _classMap (snd (import demo_env (VStr "app.models.Ghost") true (app_state demo_env)))
  = _classMap (app_state demo_env) ∧
  _includePaths (snd (import demo_env (VStr "app.models.Ghost") true (app_state demo_env)))
  = _includePaths (app_state demo_env) ∧
  heap (snd (import demo_env (VStr "app.models.Ghost") true (app_state demo_env)))
  = heap (app_state demo_env).
Proof.
  apply (failed_import_leaves demo_env (VStr "app.models.Ghost") true
           (app_state demo_env) _ (InvalidAliasFile "app.models.Ghost")).
  reflexivity.
Defined.




(** ** Invariants of the importer's tables *)

Section ImporterInvariants.
Import JsString.

Lemma with_include_path_NoDup E path paths :
  NoDup (default [] paths) → NoDup (with_include_path E path paths).
Proof.
  unfold with_include_path. destruct paths as [l|]; simpl; intros Hl.
  - case_bool_decide; [done|]. apply NoDup_app. split; [done|].
    split; [|apply NoDup_singleton]. intros x Hx ->%list_elem_of_singleton. done.
  - case_bool_decide; [apply NoDup_singleton|].
    apply NoDup_cons. split; [|apply NoDup_singleton].
    intros Hin%list_elem_of_singleton. by apply H, list_elem_of_singleton.
Qed.

Lemma includePaths_NoDup_same st st' :
  includePaths_NoDup st → _includePaths st' = _includePaths st → includePaths_NoDup st'.
Proof. unfold includePaths_NoDup. by intros H ->. Qed.

Lemma includePaths_NoDup_run_call_ext E c st :
  includePaths_NoDup st → includePaths_NoDup (run_call_ext E c st).
Proof.
  assert (∀ st path, includePaths_NoDup st →
            includePaths_NoDup
              (set_includePaths (Some (with_include_path E path (_includePaths st))) st))
    as Hadd by (intros; by apply with_include_path_NoDup).
  destruct c as [[]| | |]; simpl.
  - apply preserves_setApplication; intros; by eapply includePaths_NoDup_same.
  - apply preserves_getPathOfAlias; intros; by eapply includePaths_NoDup_same.
  - apply preserves_setPathOfAlias; intros; by eapply includePaths_NoDup_same.
  - apply preserves_import; try done; intros; by eapply includePaths_NoDup_same.
  - apply preserves_proxy_get; intros; by eapply includePaths_NoDup_same.
  - apply preserves_alloc; intros; by eapply includePaths_NoDup_same.
  - apply preserves_createComponent; try done; intros; by eapply includePaths_NoDup_same.
  - apply preserves_createApplication; [intros n; apply preserves_proxy_get|];
      intros; by eapply includePaths_NoDup_same.
  - apply preserves_clone; intros; by eapply includePaths_NoDup_same.
  - apply preserves_extend; intros; by eapply includePaths_NoDup_same.
Qed.

(** X9: whatever is called, the include path list never holds the same
    path twice.  Paths are compared as strings: a directory imported under
    two spellings of its alias, which resolve to paths with and without a
    final slash, is listed under both. *)
Theorem include_paths_never_repeat (E : env) (calls : list call_ext) :
  NoDup (default [] (_includePaths (run_calls_ext E calls))) ∧
  _includePaths (run_calls_ext demo_env two_spellings_calls)
  = Some ["/home/u"; "/srv/app/models"; "/srv/app/models/"].
Proof.
  split; [|reflexivity].
  apply (run_calls_ext_invariant E includePaths_NoDup).
  - apply NoDup_nil_2.
  - intros c st. apply includePaths_NoDup_run_call_ext.
Qed.

(** X10: a lazy import of a name or of a class alias never looks at the
    process: the filesystem, the working directory and the debug flag have
    no influence on what it returns and records. *)
Theorem lazy_class_import_ignores_the_process (E E' : env) (a : string) (st : state) :
  (∀ pos, lastIndexOf "." a = Some pos → substring_from (pos + 1) a ≠ "*") →
  import E (VStr a) false st = import E' (VStr a) false st.
Proof.
  intros Hcls.
  destruct (truthy (js_get_str (_imports st) a)) eqn:Hmemo.
  { by rewrite !import_memo. }
  destruct (lastIndexOf "." a) as [pos|] eqn:Hpos; [|by rewrite !import_simple].
  specialize (Hcls pos eq_refl). rewrite (imports_read_dotted _ _ _ Hpos) in Hmemo.
  destruct (getPathOfAlias_import_cases a pos st Hpos) as [(path & stg & Hg)|[stg Hg]].
  - by rewrite !(import_class _ a false st pos path stg).
  - rewrite !(import_unresolved _ a false st pos); by rewrite ?Hg.
Qed.

Lemma lazy_class_import_ignores_the_process_witness :
  import demo_env (VStr "app.models.Ghost") false (app_state demo_env)
  = import strict_env (VStr "app.models.Ghost") false (app_state demo_env).
Proof.
  apply lazy_class_import_ignores_the_process.
  intros pos [= <-]. discriminate.
Defined.

Lemma imports_simple_same st st' :
  imports_simple st → _imports st' = _imports st → imports_simple st'.
Proof. intros H Heq k v. rewrite Heq. apply H. Qed.

Lemma imports_simple_insert st s v :
  (lastIndexOf "." s = None → v = s) → imports_simple st →
  imports_simple (set_imports <[s := v]> st).
Proof.
  intros Hv H k w Hk. simpl. rewrite lookup_insert. case_decide.
  - subst. intros [= <-]. by apply Hv.
  - by apply H.
Qed.

Lemma imports_simple_import E alias force :
  preserves imports_simple (import E alias force).
Proof.
  apply preserves_import_via; try (intros; by eapply imports_simple_same).
  - intros n. apply preserves_proxy_get. intros; by eapply imports_simple_same.
  - intros a. apply preserves_getPathOfAlias. intros; by eapply imports_simple_same.
  - intros; by apply imports_simple_insert.
Qed.

Lemma imports_simple_run_call_ext E c st :
  imports_simple st → imports_simple (run_call_ext E c st).
Proof.
  assert (∀ n, preserves imports_simple (proxy_get E n)) as Hget.
  { intros n. apply preserves_proxy_get. intros; by eapply imports_simple_same. }
  destruct c as [[]| | |]; simpl.
  - apply preserves_setApplication; intros; by eapply imports_simple_same.
  - apply preserves_getPathOfAlias; intros; by eapply imports_simple_same.
  - apply preserves_setPathOfAlias; intros; by eapply imports_simple_same.
  - apply imports_simple_import.
  - apply Hget.
  - apply preserves_alloc; intros; by eapply imports_simple_same.
  - apply preserves_createComponent_via; [done|intros; apply imports_simple_import|].
    intros; by eapply imports_simple_same.
  - apply preserves_createApplication; [done|]. intros; by eapply imports_simple_same.
  - apply preserves_clone; intros; by eapply imports_simple_same.
  - apply preserves_extend; intros; by eapply imports_simple_same.
Qed.

(** X11: importing a name without a dot that is not a name
    [Object.prototype] defines gives the name back, in every state a client
    can reach: a lazy import returns it and changes nothing, and a forced
    import that returns, returns it.  (For an inherited name the read of
    the import cache yields the inherited property, and that is returned.) *)
Theorem import_of_a_simple_name (E : env) (calls : list call_ext) (a : string) :
  lastIndexOf "." a = None →
  (Object_prototype !! a = None →
   import E (VStr a) false (run_calls_ext E calls)
   = (Ret (VStr a), run_calls_ext E calls) ∧
   ∀ r st', import E (VStr a) true (run_calls_ext E calls) = (Ret r, st') →
            r = VStr a) ∧
  (∀ v force, Object_prototype !! a = Some v →
     _imports (run_calls_ext E calls) !! a = None →
     import E (VStr a) force (run_calls_ext E calls) = (Ret v, run_calls_ext E calls)).
Proof.
  intros Hpos.
  assert (imports_simple (run_calls_ext E calls)) as Hinv.
  { apply run_calls_ext_invariant; [done|]. intros c st. apply imports_simple_run_call_ext. }
  generalize dependent (run_calls_ext E calls). intros st Hinv. split.
  - intros Hnot.
    destruct (truthy (js_get_str (_imports st) a)) eqn:Hmemo.
    + rewrite !(import_memo E (VStr a)) by done. change (to_key (VStr a)) with a.
      rewrite truthy_js_get_str in Hmemo by done.
      apply truthy_str_inv in Hmemo as (v & Hv & _).
      rewrite (js_get_str_own _ _ v) by done.
      rewrite (Hinv a v Hpos Hv). split; [done|]. by intros r st' [= <- _].
    + rewrite !import_simple by done. split; [done|]. intros r st'.
      destruct (proxy_get E a st) as [[v|e] st1]; [|done]. by intros [= <- _].
  - intros v force Hv Hown.
    destruct (Object_prototype_inv _ _ Hv) as (_ & Htruthy & _).
    rewrite import_memo; change (to_key (VStr a)) with a;
      rewrite js_get_str_absent, (inherited_Some _ v) by done; done.
Qed.

Lemma import_of_a_simple_name_witness :
  (import demo_env (VStr "CLogger") false
     (run_calls_ext demo_env [CallBase (CallImport "CLogger" true)])
   = (Ret (VStr "CLogger"), run_calls_ext demo_env [CallBase (CallImport "CLogger" true)]) ∧
   ∀ r st', import demo_env (VStr "CLogger") true
              (run_calls_ext demo_env [CallBase (CallImport "CLogger" true)])
            = (Ret r, st') → r = VStr "CLogger") ∧
  import demo_env (VStr "constructor") true
    (run_calls_ext demo_env [CallBase (CallImport "CLogger" true)])
  = (Ret (native "Object"), run_calls_ext demo_env [CallBase (CallImport "CLogger" true)]).
Proof.
  split.
  - apply (proj1 (import_of_a_simple_name demo_env [CallBase (CallImport "CLogger" true)]
                    "CLogger" eq_refl)). reflexivity.
  - apply (proj2 (import_of_a_simple_name demo_env [CallBase (CallImport "CLogger" true)]
                    "constructor" eq_refl)); reflexivity.
Defined.

End ImporterInvariants.

(** ** More on the registry *)

Section RegistryMore.
Import JsString.

(** X12: the report of a file name mismatch is made once: the module was
    bound before the check, so the same reference made again returns the
    module of the file that was found, and throws nothing. *)
Theorem mismatch_is_reported_once
    (E : env) (name n file : string) (st st1 : state) :
  proxy_get E name st = (Throw (ClassFileMismatch n file), st1) →
  ∃ m, load_file E file = Some m ∧ proxy_get E name st1 = (Ret m, st1).
Proof.
  intros Hres.
  destruct (target st !! name) as [w|] eqn:H.
  { by rewrite (proxy_get_bound _ _ w) in Hres. }
  destruct (_coreClasses !! name) as [rel|] eqn:Hc.
  { rewrite (proxy_get_core _ _ rel) in Hres by done. by destruct (require E _). }
  destruct (_classMap st !! name) as [f|] eqn:Hm.
  { rewrite (proxy_get_classMap _ _ f) in Hres by done. by destruct (require E _). }
  rewrite proxy_get_scan in Hres by done.
  destruct (first_match E name _) as [[f m]|] eqn:Hfirst; [|done].
  destruct (YIILA_DEBUG E && _); [|done].
  injection Hres as Hn Hf Hst. subst n file st1.
  exists m. split.
  - clear -Hfirst. induction (default [] (_includePaths st)) as [|d rest IH]; [done|].
    simpl in Hfirst. destruct (load_file E (class_file d name)) eqn:Hl; [|by apply IH].
    injection Hfirst as <- <-. done.
  - apply proxy_get_bound. simpl. by rewrite lookup_insert_eq.
Qed.

Lemma mismatch_is_reported_once_witness :
  ∃ m, load_file strict_env "/srv/app/models/User.js" = Some m ∧
       proxy_get strict_env "x/../User"
         (snd (proxy_get strict_env "x/../User" (models_state strict_env)))
       = (Ret m, snd (proxy_get strict_env "x/../User" (models_state strict_env))).
Proof.
  apply (mismatch_is_reported_once strict_env "x/../User" "x/../User"
           "/srv/app/models/User.js" (models_state strict_env)).
  reflexivity.
Defined.

Lemma bound_run_call_ext E c st k :
  is_Some (target st !! k) → is_Some (target (run_call_ext E c st) !! k).
Proof.
  set (P := λ st : state, is_Some (target st !! k)).
  assert (∀ st st', P st → target st' = target st → P st') as Hsame.
  { unfold P. by intros ?? H ->. }
  assert (∀ st k' m, P st → P (set_target <[k' := m]> st)) as Hins.
  { unfold P. intros st1 k' m H. simpl. rewrite lookup_insert.
    case_decide; [by eexists|done]. }
  assert (∀ n, preserves P (proxy_get E n)) as Hget.
  { intros n. apply preserves_proxy_get_ins. intros. by apply Hins. }
  assert (∀ a f, preserves P (import E a f)) as Himport.
  { intros a f. apply preserves_import_via; try done; try (intros; by eapply Hsame).
    intros a'. apply preserves_getPathOfAlias. intros; by eapply Hsame. }
  change (P st → P (run_call_ext E c st)).
  destruct c as [[]| | |]; simpl.
  - apply preserves_setApplication; intros; by eapply Hsame.
  - apply preserves_getPathOfAlias; intros; by eapply Hsame.
  - apply preserves_setPathOfAlias; intros; by eapply Hsame.
  - apply Himport.
  - apply Hget.
  - apply preserves_alloc; intros; by eapply Hsame.
  - apply preserves_createComponent_via; [done|done|]. intros; by eapply Hsame.
  - apply preserves_createApplication; [done|]. intros; by eapply Hsame.
  - apply preserves_clone; intros; by eapply Hsame.
  - apply preserves_extend; intros; by eapply Hsame.
Qed.

(** X13: no call ever unbinds a name of the registry: what is an own
    property of [Base] at some point of a run is one from then on (its value
    may be replaced by a forced import). *)
Theorem bindings_are_never_removed
    (E : env) (calls more : list call_ext) (k : string) :
  is_Some (target (run_calls_ext E calls) !! k) →
  is_Some (target (run_calls_ext E (calls ++ more)) !! k).
Proof.
  unfold run_calls_ext. rewrite foldl_app.
  generalize (foldl (λ st c, run_call_ext E c st) (initial E) calls).
  induction more as [|c more IH]; intros st H; simpl; [done|].
  by apply IH, bound_run_call_ext.
Qed.

Lemma bindings_are_never_removed_witness :
  is_Some (target (run_calls_ext demo_env
                     ([CallBase (CallGet "CLogger")]
                      ++ [CallBase (CallImport "CLogger" true);
                          CallCreateApplication (VStr "CLogger") VUndefined]))
           !! "CLogger").
Proof.
  apply (bindings_are_never_removed demo_env [CallBase (CallGet "CLogger")]).
  by eexists.
Defined.

End RegistryMore.

(** ** More on the component factory *)

Section FactoryMore.
Context (E : env).






(** A descriptor object without a ['class'] property is rejected
    before anything is looked up or changed. *)
Lemma createComponent_requires_class
    (st : state) (l : loc) (o : object) (args : list value) :
  heap st !! l = Some o →
  props o !! "class" = None →
  createComponent E (CfgObject l) args st = (Throw ConfigurationError, st).
Proof.
  intros Hl Hcls. unfold createComponent. unfold_M. unfold read. rewrite Hl.
  unfold has_own. by rewrite Hcls.
Qed.


End FactoryMore.




(** ** [extend] and [clone] *)

Section ExtendClone.

Lemma define_all_list_spec (l : list (string * value)) (o : object) :
  let o' := foldr (λ kv o, {| proto := proto o; props := <[kv.1 := kv.2]> (props o) |})
                  o l in
  proto o' = proto o ∧
  ∀ k, props o' !! k
       = match (list_to_map l : gmap string value) !! k with
         | Some v => Some v
         | None => props o !! k
         end.
Proof.
  induction l as [|[k' v'] l [IHp IH]]; simpl; [done|].
  split; [done|]. intros k. rewrite !lookup_insert. case_decide; [done|apply IH].
Qed.

Lemma define_all_spec (source : gmap string value) (o : object) :
  proto (define_all source o) = proto o ∧
  ∀ k, props (define_all source o) !! k
       = match source !! k with Some v => Some v | None => props o !! k end.
Proof.
  pose proof (define_all_list_spec (map_to_list source) o) as [Hp H].
  split; [done|]. intros k. unfold define_all. rewrite H.
  by rewrite list_to_map_to_list.
Qed.

Lemma set_heap_insert_id t o st :
  heap st !! t = Some o → set_heap <[t := o]> st = st.
Proof. intros H. destruct st. unfold set_heap. simpl in *. f_equal. by apply insert_id. Qed.

Lemma set_heap_insert_twice t o1 o2 st :
  set_heap <[t := o2]> (set_heap <[t := o1]> st) = set_heap <[t := o2]> st.
Proof. destruct st. unfold set_heap. simpl. f_equal. apply insert_insert_eq. Qed.

Lemma last_defined_cons k (m : gmap string value) ms :
  last_defined k (m :: ms)
  = match last_defined k ms with Some v => Some v | None => m !! k end.
Proof.
  unfold last_defined. simpl. destruct (m !! k) as [v|]; [|by destruct (last _)].
  by rewrite last_cons.
Qed.

(** The loop of [extend] on a target that exists, over sources that exist
    and are not the target. *)
Lemma extend_loop_spec (sources : list loc) (objs : list object) :
  Forall2 (λ s o, True) sources objs →
  ∀ t tobj st,
    heap st !! t = Some tobj →
    Forall2 (λ s o, heap st !! s = Some o ∧ s ≠ t) sources objs →
    ∃ tobj', extend_loop t sources st = (Ret (), set_heap <[t := tobj']> st) ∧
             proto tobj' = proto tobj ∧
             ∀ k, props tobj' !! k
                  = match last_defined k (props <$> objs) with
                    | Some v => Some v
                    | None => props tobj !! k
                    end.
Proof.
  induction 1 as [|s o sources objs _ _ IH]; intros t tobj st Ht Hall.
  - exists tobj. simpl. unfold_M. by rewrite set_heap_insert_id.
  - apply Forall2_cons in Hall as [[Hs Hne] Hall].
    destruct (define_all_spec (props o) tobj) as [Hp Hk].
    destruct (IH t (define_all (props o) tobj)
                (set_heap <[t := define_all (props o) tobj]> st)) as (tobj' & Hrun & Hp' & Hk').
    { simpl. by rewrite lookup_insert_eq. }
    { eapply Forall2_impl; [exact Hall|]. intros s' o' [Hs' Hne']. simpl.
      by rewrite lookup_insert_ne. }
    exists tobj'. split; [|split].
    + simpl. unfold_M. unfold read. rewrite Hs, Ht. simpl.
      rewrite Hrun. by rewrite set_heap_insert_twice.
    + by rewrite Hp'.
    + intros k. rewrite Hk', fmap_cons, last_defined_cons, Hk.
      by destruct (last_defined k (props <$> objs)).
Qed.

Lemma extend_spec (sources : list loc) (objs : list object) (st : state) :
  Forall2 (λ s o, heap st !! s = Some o) sources objs →
  ∃ t P,
    extend sources st = (Ret t, set_heap <[t := {| proto := None; props := P |}]> st) ∧
    heap st !! t = None ∧
    ∀ k, P !! k = last_defined k (props <$> objs).
Proof.
  intros Hall. set (t := fresh (dom (heap st))).
  pose proof (alloc_fresh st) as Hfresh. fold t in Hfresh.
  destruct (extend_loop_spec sources objs) with
    (t := t) (tobj := {| proto := None; props := ∅ |})
    (st := set_heap <[t := {| proto := None; props := ∅ |}]> st)
    as (tobj' & Hrun & Hp & Hk).
  { eapply Forall2_impl; [exact Hall|done]. }
  { simpl. by rewrite lookup_insert_eq. }
  { eapply Forall2_impl; [exact Hall|]. intros s o Hs. simpl.
    assert (s ≠ t) by (intros ->; congruence). by rewrite lookup_insert_ne. }
  exists t, (props tobj'). split; [|split; [done|]].
  - unfold extend, alloc. unfold_M. fold t. rewrite Hrun.
    rewrite set_heap_insert_twice. destruct tobj' as [pr ps]. simpl in *. by subst pr.
  - intros k. rewrite Hk. simpl. by destruct (last_defined k (props <$> objs)).
Qed.

(** X17: [extend] of objects that exist returns a new plain object and
    leaves its sources as they are; a property of the result has the value
    it has in the last source that defines it, and the result has no other
    properties. *)
Theorem extend_last_source_wins (sources : list loc) (objs : list object) (st : state) :
  Forall2 (λ s o, heap st !! s = Some o) sources objs →
  ∃ t P,
    extend sources st = (Ret t, set_heap <[t := {| proto := None; props := P |}]> st) ∧
    heap st !! t = None ∧
    ∀ k, P !! k = last_defined k (props <$> objs).
Proof. apply extend_spec. Qed.

Lemma extend_last_source_wins_witness :
  ∃ t P,
    extend [1%positive; 2%positive]
      (set_heap <[2%positive := {| proto := Some User_src;
                                   props := {[ "level" := VStr "debug" ]} |}]>
         (descriptor_state demo_env))
    = (Ret t, set_heap <[t := {| proto := None; props := P |}]>
                (set_heap <[2%positive := {| proto := Some User_src;
                                             props := {[ "level" := VStr "debug" ]} |}]>
                   (descriptor_state demo_env))) ∧
    heap (set_heap <[2%positive := {| proto := Some User_src;
                                      props := {[ "level" := VStr "debug" ]} |}]>
            (descriptor_state demo_env)) !! t = None ∧
    ∀ k, P !! k
         = last_defined k
             (props <$> [logger_descriptor;
                         {| proto := Some User_src;
                            props := {[ "level" := VStr "debug" ]} |}]).
Proof.
  apply extend_last_source_wins.
  repeat constructor.
Defined.

(** X18: [clone] of an object that exists puts a copy, with the same
    prototype and properties, at an address that was free; [extend] of that
    one object gives the same properties without the prototype.  Neither
    changes an object that exists. *)
Theorem clone_and_extend_of_one_object (obj : loc) (o : object) (st : state) :
  heap st !! obj = Some o →
  ∃ c, heap st !! c = None ∧
       clone obj st = (Ret c, set_heap <[c := o]> st) ∧
       extend [obj] st
       = (Ret c, set_heap <[c := {| proto := None; props := props o |}]> st).
Proof.
  intros Hobj. exists (fresh (dom (heap st))).
  pose proof (alloc_fresh st) as Hfresh.
  split; [done|]. split.
  - unfold clone, read, alloc. unfold_M. rewrite Hobj. by destruct o.
  - destruct (extend_spec [obj] [o] st) as (t & P & Hrun & _ & HP).
    { by repeat constructor. }
    rewrite Hrun. pose proof Hrun as Ht. unfold extend, alloc in Ht. unfold_M.
    destruct (extend_loop _ _ _) as [[[]|e] st'] in Ht; [|done].
    injection Ht as <- _. assert (P = props o) as ->; [|done].
    apply map_eq. intros k.
    rewrite HP. unfold last_defined. simpl. by destruct (props o !! k).
Qed.

Lemma clone_and_extend_of_one_object_witness :
  ∃ c, heap (descriptor_state demo_env) !! c = None ∧
       clone 1%positive (descriptor_state demo_env)
       = (Ret c, set_heap <[c := logger_descriptor]> (descriptor_state demo_env)) ∧
       extend [1%positive] (descriptor_state demo_env)
       = (Ret c, set_heap <[c := {| proto := None; props := props logger_descriptor |}]>
                   (descriptor_state demo_env)).
Proof.
  apply clone_and_extend_of_one_object. reflexivity.
Defined.

End ExtendClone.

(** ** Messages with parameters *)

Section TranslateFacts.
Context (util_format : string → list value → string).

Example replace_all_ex1 :
  t util_format "cat" "Hello {name}, {name}!" (ParamsObject [("{name}", VStr "World")])
  = "Hello World, World!".
Proof. reflexivity. Qed.

Example replace_all_ex2 :
  t util_format "cat" "ab" (ParamsObject [("b", VStr "X"); ("", VStr "X")]) = "XaXX".
Proof. reflexivity. Qed.

Lemma match_here_Some alternatives s k :
  match_here alternatives s = Some k → k ∈ alternatives ∧ String.prefix k s = true.
Proof.
  induction alternatives as [|a rest IH]; simpl; [done|].
  destruct (String.prefix a s) eqn:Hp.
  - intros [= <-]. split; [apply list_elem_of_here|done].
  - intros [Hin Hk]%IH. split; [by apply list_elem_of_further|done].
Qed.

Lemma replace_all_no_occurrence alternatives f message :
  (∀ k, k ∈ alternatives → k ≠ "" ∧ occursb k message = false) →
  replace_all alternatives f 0 message = message.
Proof.
  induction message as [|c r IH]; intros Hk; simpl.
  - destruct (match_here alternatives "") as [k|] eqn:Hm; [|done].
    apply match_here_Some in Hm as [Hin Hp]. destruct (Hk k Hin) as [Hne _].
    by destruct k.
  - destruct (match_here alternatives (String c r)) as [k|] eqn:Hm.
    + apply match_here_Some in Hm as [Hin Hp].
      destruct (Hk k Hin) as [_ Hocc].
      change (String.prefix k (String c r) || occursb k r = false) in Hocc.
      by rewrite Hp in Hocc.
    + f_equal. apply IH. intros k Hin. destruct (Hk k Hin) as [Hne Hocc].
      split; [done|].
      change (String.prefix k (String c r) || occursb k r = false) in Hocc.
      by apply orb_false_elim in Hocc as [_ ?].
Qed.

(** X19: the messages of the exceptions of [lib/index.js]: [t] puts the alias
    (the class name, the file) in the place of its placeholder, as it is,
    also when that text contains a placeholder itself.  The placeholders
    are literal patterns. *)
Theorem t_fills_the_error_messages (category alias name file : string) :
  t util_format category msg_invalid_alias (ParamsObject [("{alias}", VStr alias)])
  = "Alias " +:+ dq +:+ alias +:+ dq
    +:+ " is invalid. Make sure it points to an existing directory or file." ∧
  t util_format category msg_invalid_alias_file (ParamsObject [("{alias}", VStr alias)])
  = "Alias " +:+ dq +:+ alias +:+ dq
    +:+ " is invalid. Make sure it points to an existing PHP file and the file is readable." ∧
  t util_format category msg_class_file_mismatch
    (ParamsObject [("{class}", VStr name); ("{file}", VStr file)])
  = "Class name " +:+ dq +:+ name +:+ dq +:+ " does not match class file "
    +:+ dq +:+ file +:+ dq +:+ "." ∧
  Forall (λ k, regex_literal k = true) ["{alias}"; "{class}"; "{file}"].
Proof. repeat split; try reflexivity. by repeat constructor. Qed.

(** X20: with an object of parameters whose keys are non-empty literal
    patterns, a message in which no key occurs is returned as it is. *)
Theorem t_without_occurrence
    (category message : string) (entries : list (string * value)) :
  entries ≠ [] →
  Forall (λ e, regex_literal e.1 = true ∧ e.1 ≠ "") entries →
  Forall (λ e, occursb e.1 message = false) entries →
  t util_format category message (ParamsObject entries) = message.
Proof.
  intros Hne Hlit Hocc. unfold t. apply replace_all_no_occurrence.
  intros k Hin. assert (k ∈ entries.*1) as Hin' by (by destruct entries).
  apply list_elem_of_fmap in Hin' as (e & -> & He).
  rewrite Forall_forall in Hlit. rewrite Forall_forall in Hocc.
  split; [by apply Hlit|by apply Hocc].
Qed.

(** X21: with an object that has no property at all, the pattern is the
    empty group: [t] returns the message with [undefined] put before every
    character and at the end. *)
Theorem t_with_empty_object (category message : string) :
  t util_format category message (ParamsObject []) = interleave "undefined" message.
Proof.
  unfold t. simpl pattern_alternatives.
  change "undefined" with (to_key (param_of [] "")).
  assert (∀ g : string → string, replace_all [""] g 0 message = interleave (g "") message)
    as Hgen.
  { intros g. induction message as [|c r IH]; [done|]. simpl. by rewrite IH. }
  apply (Hgen (λ key, to_key (param_of [] key))).
Qed.

End TranslateFacts.

Lemma t_without_occurrence_witness :
  t (λ m _, m) "yiila" "Nothing to fill in." (ParamsObject [("{alias}", VStr "app.x")])
  = "Nothing to fill in.".
Proof.
  apply t_without_occurrence; [done|by repeat constructor|by repeat constructor].
Defined.
